(** * ebisu-bench: replaying Anki review logs through the Ebisu scheduler

    A shallow embedding of [ebisu_bench.py] and the properties of its
    review-log aggregation, of the emulation fold, of the recall
    queries, of the relative-time formatter and of the end-of-run
    summary.

    Conventions of the embedding.
    - Python integers are [Z]; [//] on integers is floor division
      ([Z.div]), [abs] is [Z.abs].
    - A Python call that may raise returns an [outcome]: either
      [Returned v] or [Raised e].  Sequencing is the bind of that
      monad, so an exception aborts everything that follows it.
    - The [ebisu] package is an external library.  It is an interface
      ([Ebisu]) whose operations are taken as given; [updateRecall]
      may raise.
    - The wall clock ([datetime.datetime.utcnow]) is an explicit
      argument, read at integer-second resolution. *)

From stdpp Require Import gmap list sorting strings.
From Stdlib Require Import DecimalString QArith_base.

Open Scope Z_scope.

(** ** Exceptions and outcomes *)

Inductive exn : Type :=
  | ZeroDivisionError
  | UnboundLocalError
  | EbisuError.

Inductive outcome (A : Type) : Type :=
  | Returned (a : A)
  | Raised (e : exn).
Arguments Returned {A} a.
Arguments Raised {A} e.

Global Instance outcome_ret : MRet outcome := λ A a, Returned a.

Global Instance outcome_bind : MBind outcome := λ A B k c,
  match c with
  | Returned a => k a
  | Raised e => Raised e
  end.

Global Instance outcome_fmap : FMap outcome := λ A B f c,
  match c with
  | Returned a => Returned (f a)
  | Raised e => Raised e
  end.

(** A [for] loop whose body may raise: the state is threaded from left
    to right and the first exception ends the loop. *)
Fixpoint for_each {S X : Type} (body : S → X → outcome S) (xs : list X) (s : S)
  : outcome S :=
  match xs with
  | [] => Returned s
  | x :: xs' => s' ← body s x; for_each body xs' s'
  end.

(** ** The Anki collection *)

(** A row of the [revlog] table, restricted to the columns the program
    reads: [id] is the review's epoch timestamp in milliseconds, [cid]
    the card it belongs to, [ease] the button pressed. *)
Record revlog_row : Type := RevlogRow {
  rl_id : Z;
  rl_cid : Z;
  rl_ease : Z
}.

(** An open database: the [id] column of [cards] and the [revlog]
    table, both in the order the queries yield their rows. *)
Record Conn : Type := MkConn {
  cards : list Z;
  revlog : list revlog_row
}.

(** [SELECT DISTINCT id FROM cards] *)
Definition get_all_card_ids (conn : Conn) : list Z :=
  remove_dups (cards conn).

(** [SELECT id, ease FROM revlog WHERE cid = ?] *)
Definition select_revlog (conn : Conn) (card_id : Z) : list (Z * Z) :=
  (λ r, (rl_id r, rl_ease r)) <$> filter (λ r, rl_cid r = card_id) (revlog conn).

(** An aggregated session: its time in seconds and its trials. *)
Definition session : Type := Z * list bool.

(** The order [sorted] puts on the items of the dictionary.  Python
    compares the pairs lexicographically; the keys of a dictionary are
    distinct, so only the first components are ever decisive. *)
Definition item_le (a b : session) : Prop := a.1 ≤ b.1.

Global Instance item_le_dec (a b : session) : Decision (item_le a b).
Proof. unfold item_le. apply _. Defined.

Global Instance item_le_total : Total item_le.
Proof. intros a b. unfold item_le. lia. Qed.

Global Instance item_le_trans : Transitive item_le.
Proof. intros a b c. unfold item_le. lia. Qed.

(** One iteration of the loop of [get_review_log]:
    [reviews[timestamp // 1000].append(button != 1)] on a
    [defaultdict(list)]. *)
Definition record_review (reviews : gmap Z (list bool)) (row : Z * Z)
  : gmap Z (list bool) :=
  let '(timestamp, button) := row in
  let timestamp := timestamp `div` 1000 in
  let passed := negb (button =? 1) in
  <[timestamp := default [] (reviews !! timestamp) ++ [passed]]> reviews.

(** The body of [get_review_log] after the query. *)
Definition review_sessions (rows : list (Z * Z)) : list session :=
  let reviews := foldl record_review ∅ rows in
  merge_sort item_le (map_to_list reviews).

Definition get_review_log (conn : Conn) (card_id : Z) : list session :=
  review_sessions (select_revlog conn card_id).

(** Python's [any], [sum] and [len] on a list of booleans. *)
Definition any (trials : list bool) : bool := existsb id trials.

Definition sum (trials : list bool) : Z :=
  foldr (λ (b : bool) acc, (if b then 1 else 0) + acc) 0 trials.

Definition len {A : Type} (l : list A) : Z := Z.of_nat (length l).

(** ** The Ebisu library *)

(** The four operations the program calls.  [Model] is Ebisu's belief
    state and [Float] the type of the numbers it returns; neither is
    inspected by the program.  [updateRecall model successes total
    tnow] may raise. *)
Class Ebisu : Type := {
  Model : Type;
  Float : Type;
  defaultModel : Z → Model;
  updateRecall : Model → Z → Z → Z → outcome Model;
  predictRecall : Model → Z → bool → Float;
  modelToPercentileDecay : Model → Q → Float
}.

(** ** [EbisuCard] *)

Section EbisuCard.
Context `{E : Ebisu}.

(** The attributes of a card returned by [emulate], which fills
    every one of them. *)
Record EbisuCard : Type := MkCard {
  card_id : Z;
  review_log : list session;
  model : Model;
  last_review : Z
}.

(** The methods are state passing on [self]: each returns its value
    and the object as the call leaves it.  [utcnow] is what
    [int(datetime.datetime.utcnow().timestamp())] evaluates to
    during the call. *)
Definition recall_at (self : EbisuCard) (tnow : option Z) (utcnow : Z)
  : Float * EbisuCard :=
  let tnow := match tnow with
              | None => utcnow
              | Some tnow => tnow
              end in
  (predictRecall (model self) tnow true, self).

Definition recall_when (self : EbisuCard) (percentile : option Q)
  : Float * EbisuCard :=
  let percentile := default (Qmake 50 100) percentile in
  (modelToPercentileDecay (model self) percentile, self).

(** The body of the loop of [emulate] on the loop state
    [(current, last_review)]. *)
Definition emulate_step (st : Model * option Z) (s : session)
  : outcome (Model * option Z) :=
  let '(current, last_review) := st in
  let '(timestamp, trials) := s in
  match last_review with
  | None =>
      if any trials then mret (current, Some timestamp)
      else mret (current, None)
  | Some last =>
      let tnow := timestamp - last in
      current ← updateRecall current (sum trials) (len trials) tnow;
      mret (current, Some timestamp)
  end.

Definition emulate (card_id : Z) (review_log : list session)
  : outcome (option EbisuCard) :=
  '(current, last_review) ←
    for_each emulate_step review_log (defaultModel (10 * 60), None);
  match last_review with
  | None => mret None
  | Some last_review =>
      mret (Some {| card_id := card_id; review_log := review_log;
                    model := current; last_review := last_review |})
  end.

(** The recall probability of the verbose report of [main]:
    [card.recall_at(tnow=utcnow - card.last_review)]. *)
Definition main_recall_now (card : EbisuCard) (utcnow : Z) : Float :=
  let tnow := utcnow - last_review card in
  (recall_at card (Some tnow) utcnow).1.

(** *** The summary of [main] *)

(** One iteration of the loop over the cards, on the state
    [(total_cards, total_reviews)]. *)
Definition main_step (conn : Conn) (totals : Z * Z) (card_id : Z)
  : outcome (Z * Z) :=
  let '(total_cards, total_reviews) := totals in
  let review_log := get_review_log conn card_id in
  card ← emulate card_id review_log;
  match card with
  | None => mret (total_cards, total_reviews)
  | Some _ => mret (total_cards + 1, total_reviews + (len review_log - 1))
  end.

Definition main_totals (conn : Conn) : outcome (Z * Z) :=
  for_each (main_step conn) (get_all_card_ids conn) (0, 0).
End EbisuCard.

Arguments EbisuCard : clear implicits.
Arguments EbisuCard {E}.

(** Python's [/] on integers, the quotient kept exact. *)
Definition true_div (a b : Z) : outcome Q :=
  match b with
  | 0 => Raised ZeroDivisionError
  | Z.pos d => mret (Qmake a d)
  | Z.neg d => mret (Qmake (- a) d)
  end.

(** The three values the summary line
    ["Imported %d cards with %d reviews (~%.1f/card)."] prints. *)
Record Summary : Type := MkSummary {
  imported_cards : Z;
  imported_reviews : Z;
  per_card : Q
}.

(** [main] from the opened collection on, without [--verbose]: the
    loop over the cards (lines 159-170) and the summary line (line
    186).  The extraction and the opening of the database before it,
    and the per-card report of [--verbose], are not part of it. *)
Definition main `{E : Ebisu} (conn : Conn) : outcome Summary :=
  '(total_cards, total_reviews) ← main_totals conn;
  avg ← true_div total_reviews total_cards;
  mret {| imported_cards := total_cards;
          imported_reviews := total_reviews;
          per_card := avg |}.

(** ** [fuzzy_delta] *)

Definition units : list (string * Z) :=
  [ ("year", 60 * 60 * 24 * 365);
    ("month", 60 * 60 * 24 * 30);
    ("week", 60 * 60 * 24 * 7);
    ("day", 60 * 60 * 24);
    ("hour", 60 * 60);
    ("minute", 60);
    ("second", 1) ]%string.

(** ["%d" % n] on an integer.  [fuzzy_delta] is modelled on integer
    numbers of seconds. *)
Definition fmt_d (n : Z) : string := NilZero.string_of_int (Z.to_int n).

(** The [for] loop of [fuzzy_delta]: [None] when the loop ends without
    having assigned [fuzzy]. *)
Fixpoint fuzzy_loop (units : list (string * Z)) (dt : Z) : option string :=
  match units with
  | [] => None
  | (name, interval) :: units' =>
      if bool_decide (Z.abs dt < 2 * interval) && negb (interval =? 1)
      then fuzzy_loop units' dt
      else
        let periods := Z.abs dt `div` interval in
        Some ("about " +:+ fmt_d periods +:+ " " +:+ name
                +:+ (if bool_decide (periods > 1) then "s" else ""))%string
  end.

(** [fuzzy_delta] on an integer number of seconds [dt]. *)
Definition fuzzy_delta (dt : Z) (raw : bool) : outcome string :=
  if dt =? 0 then mret "now"%string
  else
    match fuzzy_loop units dt with
    | None => Raised UnboundLocalError
    | Some fuzzy =>
        if negb raw then
          if bool_decide (dt > 0) then mret ("in " +:+ fuzzy)%string
          else if bool_decide (dt < 0) then mret (fuzzy +:+ " ago")%string
          else mret fuzzy
        else mret fuzzy
    end.

(** [s.startswith(p)] and [s.endswith(p)] *)
Definition startswith (s p : string) : bool := String.prefix p s.

Definition endswith (s p : string) : bool :=
  String.prefix (String.rev p) (String.rev s).

(** [p in s] *)
Fixpoint contains (s p : string) : bool :=
  String.prefix p s ||
  match s with
  | EmptyString => false
  | String _ s' => contains s' p
  end.

(** ** Observing the calls made to Ebisu *)

(** The arguments of one call of [updateRecall]. *)
Record update_call : Type := MkCall {
  uc_successes : Z;
  uc_total : Z;
  uc_tnow : Z
}.

(** A model that is nothing but its own history: the half-life it was
    built with and the updates applied to it since, oldest first. *)
Record spy_model : Type := MkSpy {
  spy_half_life : Z;
  spy_updates : list update_call
}.

(** What a query answered by the spy reports: the model and the
    arguments it was asked with. *)
Inductive spy_answer : Type :=
  | Predicted (m : spy_model) (tnow : Z) (exact : bool)
  | Decayed (m : spy_model) (percentile : Q).

(** The free implementation of the interface: it never raises, and two
    calls give the same answer only if they had the same arguments. *)
Definition spy : Ebisu := {|
  Model := spy_model;
  Float := spy_answer;
  defaultModel := λ t, MkSpy t [];
  updateRecall := λ m successes total tnow,
    Returned (MkSpy (spy_half_life m)
                    (spy_updates m ++ [MkCall successes total tnow]));
  predictRecall := Predicted;
  modelToPercentileDecay := Decayed
|}.

(** The calls of [updateRecall] that the loop of [emulate] makes on a
    review log, in order. *)
Definition update_calls (review_log : list session) : list update_call :=
  match for_each (emulate_step (E := spy)) review_log
                 (@defaultModel spy (10 * 60), None) with
  | Returned (current, _) => spy_updates current
  | Raised _ => []
  end.

(** Applying a sequence of updates to a model of any implementation. *)
Definition replay `{E : Ebisu} (calls : list update_call) (m : Model)
  : outcome Model :=
  for_each (λ m c, updateRecall m (uc_successes c) (uc_total c) (uc_tnow c))
           calls m.

(** The precondition of Ebisu's update on the arguments of a call. *)
Definition update_pre (c : update_call) : Prop :=
  0 < uc_tnow c ∧ 1 ≤ uc_total c ∧ 0 ≤ uc_successes c ≤ uc_total c.

(** An implementation that honours that precondition: an update
    within it returns. *)
Definition honours_update_pre (E : Ebisu) : Prop :=
  ∀ (m : Model) c, update_pre c →
    ∃ m', updateRecall m (uc_successes c) (uc_total c) (uc_tnow c) = Returned m'.

Global Instance update_pre_dec (c : update_call) : Decision (update_pre c).
Proof. unfold update_pre. apply _. Defined.

(** The spy made strict: like Ebisu's own assertions, it raises when
    an update is outside the precondition. *)
Definition strict_spy : Ebisu := {|
  Model := spy_model;
  Float := spy_answer;
  defaultModel := λ t, MkSpy t [];
  updateRecall := λ m successes total tnow,
    if decide (update_pre (MkCall successes total tnow))
    then Returned (MkSpy (spy_half_life m)
                         (spy_updates m ++ [MkCall successes total tnow]))
    else Raised EbisuError;
  predictRecall := Predicted;
  modelToPercentileDecay := Decayed
|}.

(** ** Predicates on review logs *)

(** Some session of the log has a passing trial. *)
Definition has_pass (review_log : list session) : bool :=
  existsb (λ s : session, any s.2) review_log.

(** The invariant of aggregated session lists: strictly ascending
    times. *)
Definition ascending (review_log : list session) : Prop :=
  StronglySorted Z.lt (review_log.*1).

(** Every session has at least one trial. *)
Definition nonempty_trials (review_log : list session) : Prop :=
  Forall (λ s : session, s.2 ≠ []) review_log.

(** The trials that the raw rows contribute to the session at time
    [t]: the outcomes of the rows whose timestamp normalizes to [t],
    in row order. *)
Definition trials_at (t : Z) (rows : list (Z * Z)) : list bool :=
  (λ row : Z * Z, negb (row.2 =? 1))
    <$> filter (λ row : Z * Z, row.1 `div` 1000 = t) rows.

(** Two logs with the same times and, session by session, the same
    trials up to their order. *)
Definition same_sessions (log log' : list session) : Prop :=
  Forall2 (λ s s' : session, s.1 = s'.1 ∧ s.2 ≡ₚ s'.2) log log'.

Global Instance Z_lt_antisymm : AntiSymm (=) Z.lt.
Proof. intros x y. lia. Qed.

(** ** The loop of [emulate], unfolded

    Two recursive readings of the loop state, used to reason about the
    loop: the updates it requests and the [last_review] it ends with,
    from a given [last_review] on. *)

Fixpoint calls_from (last_review : option Z) (review_log : list session)
  : list update_call :=
  match review_log with
  | [] => []
  | (timestamp, trials) :: rest =>
      match last_review with
      | None =>
          if any trials then calls_from (Some timestamp) rest
          else calls_from None rest
      | Some last =>
          MkCall (sum trials) (len trials) (timestamp - last)
            :: calls_from (Some timestamp) rest
      end
  end.

Fixpoint last_from (last_review : option Z) (review_log : list session)
  : option Z :=
  match review_log with
  | [] => last_review
  | (timestamp, trials) :: rest =>
      match last_review with
      | None =>
          if any trials then last_from (Some timestamp) rest
          else last_from None rest
      | Some _ => last_from (Some timestamp) rest
      end
  end.

(** ** Reading the totals of [main] *)

(** [emulate] returned a card. *)
Definition is_card `{E : Ebisu} (r : outcome (option EbisuCard)) : bool :=
  match r with
  | Returned (Some _) => true
  | _ => false
  end.

(** The cards of the collection for which [emulate] returned a
    card. *)
Definition emulated_cards `{E : Ebisu} (conn : Conn) : list Z :=
  filter (λ card_id, is_card (emulate card_id (get_review_log conn card_id)))
         (get_all_card_ids conn).

Definition sum_Z (zs : list Z) : Z := foldr Z.add 0 zs.

(** * Properties *)

(** ** Running the program on small inputs *)

Example get_review_log_ex :
  get_review_log
    (MkConn [1; 2] [RevlogRow 7000 1 3; RevlogRow 1600000000000 1 1;
                    RevlogRow 2000 1 1; RevlogRow 4000 2 3; RevlogRow 7001 1 2])
    1
  = [(2, [false]); (7, [true; true]); (1600000000, [false])].
Proof. vm_compute. reflexivity. Qed.

(** A raw timestamp is always read as milliseconds: a row whose [id]
    is 100 belongs to second 0. *)
Example get_review_log_raw_100 :
  get_review_log (MkConn [1] [RevlogRow 100 1 3; RevlogRow 100 1 1]) 1
  = [(0, [true; false])].
Proof. vm_compute. reflexivity. Qed.

Example emulate_ex :
  emulate (E := spy) 7 [(1, [false]); (2, [true; false]); (5, [false]); (9, [true; true])]
  = Returned (Some (MkCard (E := spy) 7
      [(1, [false]); (2, [true; false]); (5, [false]); (9, [true; true])]
      (MkSpy 600 [MkCall 0 1 3; MkCall 2 2 4]) 9)).
Proof. reflexivity. Qed.

(** Sessions that are not ascending reach Ebisu with a zero or
    negative elapsed time. *)
Example update_calls_not_ascending :
  update_calls [(5, [true]); (5, [false]); (3, [true])]
  = [MkCall 0 1 0; MkCall 1 1 (-2)].
Proof. reflexivity. Qed.

Example fuzzy_delta_ex :
  fuzzy_delta 1 false = Returned "in about 1 second"%string
  ∧ fuzzy_delta 7200 true = Returned "about 2 hours"%string
  ∧ fuzzy_delta (-172800) false = Returned "about 2 days ago"%string
  ∧ fuzzy_delta (-119) true = Returned "about 119 seconds"%string.
Proof. split_and!; reflexivity. Qed.

(** ** Running a loop *)

Lemma for_each_app {S X : Type} (body : S → X → outcome S) xs ys s :
  for_each body (xs ++ ys) s = (s' ← for_each body xs s; for_each body ys s').
Proof.
  revert s. induction xs as [|x xs IH]; intros s; simpl; [done|].
  destruct (body s x) as [s'|e]; simpl; [apply IH | done].
Qed.

(** ** The aggregator *)

Lemma trials_at_cons t row rows :
  trials_at t (row :: rows)
  = if decide (row.1 `div` 1000 = t)
    then negb (row.2 =? 1) :: trials_at t rows
    else trials_at t rows.
Proof.
  unfold trials_at. rewrite filter_cons. by case_decide.
Qed.

Lemma record_review_lookup reviews row t :
  record_review reviews row !! t
  = if decide (row.1 `div` 1000 = t)
    then Some (default [] (reviews !! t) ++ [negb (row.2 =? 1)])
    else reviews !! t.
Proof.
  destruct row as [timestamp button]; simpl.
  case_decide as Heq.
  - subst t. by rewrite lookup_insert_eq.
  - by rewrite lookup_insert_ne.
Qed.

(** The dictionary after the loop, from the dictionary before it. *)
Lemma foldl_record_review_lookup rows : ∀ (reviews : gmap Z (list bool)) t,
  foldl record_review reviews rows !! t
  = match trials_at t rows with
    | [] => reviews !! t
    | new => Some (default [] (reviews !! t) ++ new)
    end.
Proof.
  induction rows as [|row rows IH]; intros reviews t; [done|].
  simpl foldl. rewrite IH, trials_at_cons, record_review_lookup.
  case_decide as Heq.
  - simpl. destruct (trials_at t rows) as [|b new]; [done|].
    by rewrite <- app_assoc.
  - done.
Qed.

Lemma reviews_lookup rows t :
  foldl record_review (∅ : gmap Z (list bool)) rows !! t
  = match trials_at t rows with
    | [] => None
    | new => Some new
    end.
Proof.
  rewrite foldl_record_review_lookup, lookup_empty. done.
Qed.

Lemma review_sessions_perm rows :
  review_sessions rows ≡ₚ map_to_list (foldl record_review ∅ rows).
Proof. apply merge_sort_Permutation. Qed.

(** A session is in the output exactly when some row normalizes to
    its time, and then its trials are those rows' outcomes. *)
Lemma elem_of_review_sessions rows t trials :
  (t, trials) ∈ review_sessions rows
  ↔ trials = trials_at t rows ∧ trials ≠ [].
Proof.
  rewrite review_sessions_perm, elem_of_map_to_list, reviews_lookup.
  destruct (trials_at t rows) as [|b new].
  - split; [done|]. intros [-> Hne]. by destruct Hne.
  - split; [by intros [= <-]|]. by intros [-> _].
Qed.

Lemma review_sessions_NoDup rows : NoDup ((review_sessions rows).*1).
Proof.
  rewrite review_sessions_perm. apply NoDup_fst_map_to_list.
Qed.

(** Sorted by [≤] without repetition is sorted by [<]. *)
Lemma StronglySorted_le_lt (ts : list Z) :
  StronglySorted Z.le ts → NoDup ts → StronglySorted Z.lt ts.
Proof.
  induction 1 as [|t ts Hs IH Hall]; intros Hnd; [constructor|].
  apply NoDup_cons in Hnd as [Hnotin Hnd].
  constructor; [by apply IH|].
  apply Forall_forall. intros t' Hin.
  rewrite Forall_forall in Hall. specialize (Hall _ Hin).
  assert (t ≠ t') by (intros ->; done). lia.
Qed.

Lemma review_sessions_ascending rows : ascending (review_sessions rows).
Proof.
  apply StronglySorted_le_lt; [|apply review_sessions_NoDup].
  apply (StronglySorted_fmap _ item_le Z.le); [done|].
  apply StronglySorted_merge_sort; apply _.
Qed.

Lemma review_sessions_nonempty_trials rows :
  nonempty_trials (review_sessions rows).
Proof.
  apply Forall_forall. intros [t trials] Hin.
  apply elem_of_review_sessions in Hin as [_ Hne]. exact Hne.
Qed.

(** Every list of raw rows is what the query yields on some
    collection. *)
Lemma select_revlog_any_rows (rows : list (Z * Z)) card_id :
  select_revlog
    (MkConn [card_id] ((λ row : Z * Z, RevlogRow row.1 card_id row.2) <$> rows))
    card_id
  = rows.
Proof.
  unfold select_revlog; simpl.
  induction rows as [|[timestamp button] rows IH]; [done|].
  rewrite fmap_cons, filter_cons; simpl.
  case_decide; [|done]. rewrite fmap_cons; simpl. by rewrite IH.
Qed.

Lemma len_trials_at t rows :
  len (trials_at t rows)
  = len (filter (λ row : Z * Z, row.1 `div` 1000 = t) rows).
Proof. unfold len, trials_at. by rewrite length_fmap. Qed.

Lemma sum_trials_at t rows :
  sum (trials_at t rows)
  = len (filter (λ row : Z * Z, row.1 `div` 1000 = t ∧ row.2 ≠ 1) rows).
Proof.
  induction rows as [|[timestamp button] rows IH]; [done|].
  rewrite trials_at_cons, filter_cons; simpl.
  unfold len in *.
  destruct (Z.eqb_spec button 1) as [->|Hne]; repeat case_decide;
    simpl in *; try lia; try tauto.
Qed.

Lemma sum_bounds trials : 0 ≤ sum trials ≤ len trials.
Proof.
  unfold len. induction trials as [|[] trials IH]; simpl; lia.
Qed.

Lemma filter_none {A : Type} (P : A → Prop) `{∀ x, Decision (P x)} (l : list A) :
  Forall (λ x, ¬ P x) l → filter P l = [].
Proof.
  induction 1 as [|x l Hx _ IH]; [done|].
  rewrite filter_cons. by case_decide.
Qed.

(** In a list with distinct keys, the entries under a key are the one
    entry there is. *)
Lemma filter_key_NoDup (l : list session) t trials :
  NoDup (l.*1) → (t, trials) ∈ l →
  filter (λ s : session, s.1 = t) l = [(t, trials)].
Proof.
  induction l as [|[t' trials'] l IH]; intros Hnd Hin.
  - by apply elem_of_nil in Hin.
  - rewrite fmap_cons in Hnd. apply NoDup_cons in Hnd as [Hnotin Hnd].
    rewrite filter_cons; simpl.
    apply elem_of_cons in Hin as [Heq|Hin].
    + injection Heq as <- <-. case_decide; [|done]. f_equal.
      apply filter_none, Forall_forall. intros [t2 tr2] Hin2 Heq2.
      simpl in Heq2. subst t2. apply Hnotin.
      apply list_elem_of_fmap. by exists (t, tr2).
    + case_decide as Heq; [|by apply IH].
      simpl in Heq. subst t'. exfalso. apply Hnotin.
      apply list_elem_of_fmap. by exists (t, trials).
Qed.

(** Rows that all normalize to one time make one session. *)
Lemma review_sessions_single t rows :
  rows ≠ [] → Forall (λ row : Z * Z, row.1 `div` 1000 = t) rows →
  review_sessions rows = [(t, (λ row : Z * Z, negb (row.2 =? 1)) <$> rows)].
Proof.
  intros Hne Hall. unfold review_sessions.
  assert (Hfilter : ∀ t', trials_at t' rows
            = if decide (t' = t)
              then (λ row : Z * Z, negb (row.2 =? 1)) <$> rows else []).
  { intros t'. unfold trials_at. case_decide as Heq.
    - subst t'. f_equal. clear Hne.
      induction Hall as [|row rows' Hrow _ IH]; [done|].
      rewrite filter_cons. case_decide; [by rewrite IH|done].
    - replace (filter _ rows) with (@nil (Z * Z)); [done|].
      symmetry. apply filter_none. eapply Forall_impl; [exact Hall|].
      simpl. intros row Hrow. congruence. }
  assert (Hmap : foldl record_review (∅ : gmap Z (list bool)) rows
            = {[ t := (λ row : Z * Z, negb (row.2 =? 1)) <$> rows ]}).
  { apply map_eq. intros t'. rewrite reviews_lookup, Hfilter.
    case_decide as Heq.
    - subst t'. rewrite lookup_singleton_eq.
      destruct rows; [done|]. done.
    - by rewrite lookup_singleton_ne. }
  simpl. rewrite Hmap, map_to_list_singleton. reflexivity.
Qed.

(** C4, as stated, fails: rows whose raw timestamp is 100 do not make
    a session at time 100. *)
Lemma get_review_log_raw_100_not_at_100 :
  ¬ ∃ trials,
      get_review_log
        (MkConn [1] [RevlogRow 100 1 3; RevlogRow 100 1 1; RevlogRow 100 1 3]) 1
      = [(100, trials)] ∧ len trials = 3 ∧ sum trials = 2.
Proof.
  intros (trials & Hlog & _). vm_compute in Hlog. discriminate.
Qed.

(** C4, amended.  The aggregator merges the rows that share a
    normalized timestamp, the raw one floor-divided by 1000, into one
    session: whenever some row of a card normalizes to [t], the review
    log has exactly one session at [t], its number of trials is the
    number of rows normalizing to [t] and its number of successes the
    number of those whose button is not 1.  Three rows with the raw
    timestamp 100, graded pass, fail, pass, give the single session at
    time 0 with total 3 and successes 2; three such rows within second
    [t] give it at time [t], so at time 100 for raw timestamps from
    100000 to 100999. *)
Theorem get_review_log_merges_same_timestamp :
  (∀ conn card_id t,
     (∃ row, row ∈ select_revlog conn card_id ∧ row.1 `div` 1000 = t) →
     ∃ trials,
       filter (λ s : session, s.1 = t) (get_review_log conn card_id)
         = [(t, trials)]
       ∧ len trials
         = len (filter (λ row : Z * Z, row.1 `div` 1000 = t)
                       (select_revlog conn card_id))
       ∧ sum trials
         = len (filter (λ row : Z * Z, row.1 `div` 1000 = t ∧ row.2 ≠ 1)
                       (select_revlog conn card_id)))
  ∧ (∀ card_id ease1 ease3,
       ease1 ≠ 1 → ease3 ≠ 1 →
       ∃ trials,
         get_review_log
           (MkConn [card_id]
                   [RevlogRow 100 card_id ease1; RevlogRow 100 card_id 1;
                    RevlogRow 100 card_id ease3])
           card_id
         = [(0, trials)]
         ∧ len trials = 3 ∧ sum trials = 2)
  ∧ (∀ card_id t ms1 ms2 ms3 ease1 ease3,
       ms1 `div` 1000 = t → ms2 `div` 1000 = t → ms3 `div` 1000 = t →
       ease1 ≠ 1 → ease3 ≠ 1 →
       ∃ trials,
         get_review_log
           (MkConn [card_id]
                   [RevlogRow ms1 card_id ease1; RevlogRow ms2 card_id 1;
                    RevlogRow ms3 card_id ease3])
           card_id
         = [(t, trials)]
         ∧ len trials = 3 ∧ sum trials = 2).
Proof.
  assert (Hthree : ∀ card_id t ms1 ms2 ms3 ease1 ease3,
    ms1 `div` 1000 = t → ms2 `div` 1000 = t → ms3 `div` 1000 = t →
    ease1 ≠ 1 → ease3 ≠ 1 →
    ∃ trials,
      get_review_log
        (MkConn [card_id]
                [RevlogRow ms1 card_id ease1; RevlogRow ms2 card_id 1;
                 RevlogRow ms3 card_id ease3])
        card_id
      = [(t, trials)]
      ∧ len trials = 3 ∧ sum trials = 2).
  { intros card_id t ms1 ms2 ms3 ease1 ease3 H1 H2 H3 He1 He3.
    exists [true; false; true]. split; [|done].
    unfold get_review_log.
    pose proof (select_revlog_any_rows
                  [(ms1, ease1); (ms2, 1); (ms3, ease3)] card_id) as Hsel.
    simpl in Hsel. rewrite Hsel.
    rewrite (review_sessions_single t); [|done|by repeat constructor].
    simpl. apply Z.eqb_neq in He1, He3. by rewrite He1, He3. }
  split_and!.
  - intros conn card_id t (row & Hin & Hrow).
    unfold get_review_log. set (rows := select_revlog conn card_id) in *.
    exists (trials_at t rows). split_and!.
    + apply filter_key_NoDup; [apply review_sessions_NoDup|].
      apply elem_of_review_sessions. split; [done|].
      unfold trials_at. intros Hnil. apply fmap_nil_inv in Hnil.
      exact (filter_nil_not_elem_of _ rows row Hnil Hrow Hin).
    + apply len_trials_at.
    + apply sum_trials_at.
  - intros card_id ease1 ease3 He1 He3.
    by apply (Hthree card_id 0 100 100 100).
  - exact Hthree.
Qed.

Lemma get_review_log_merges_same_timestamp_witness :
  let conn := MkConn [7] [RevlogRow 100000 7 3; RevlogRow 100250 7 1;
                          RevlogRow 100999 7 4; RevlogRow 101000 7 2] in
  (∃ trials,
     filter (λ s : session, s.1 = 100) (get_review_log conn 7) = [(100, trials)]
     ∧ len trials
       = len (filter (λ row : Z * Z, row.1 `div` 1000 = 100) (select_revlog conn 7))
     ∧ sum trials
       = len (filter (λ row : Z * Z, row.1 `div` 1000 = 100 ∧ row.2 ≠ 1)
                     (select_revlog conn 7)))
  ∧ (∃ trials,
       get_review_log (MkConn [7] [RevlogRow 100 7 3; RevlogRow 100 7 1;
                                   RevlogRow 100 7 4]) 7
       = [(0, trials)] ∧ len trials = 3 ∧ sum trials = 2)
  ∧ ∃ trials,
      get_review_log (MkConn [7] [RevlogRow 100000 7 3; RevlogRow 100250 7 1;
                                  RevlogRow 100999 7 4]) 7
      = [(100, trials)] ∧ len trials = 3 ∧ sum trials = 2.
Proof.
  split_and!.
  - apply (proj1 get_review_log_merges_same_timestamp).
    exists (100000, 3). split; [|reflexivity].
    vm_compute. apply list_elem_of_here.
  - apply (proj1 (proj2 get_review_log_merges_same_timestamp) 7 3 4);
      discriminate.
  - apply (proj2 (proj2 get_review_log_merges_same_timestamp)
             7 100 100000 100250 100999 3 4);
      first [reflexivity | discriminate].
Defined.

(** C5.  The review log of a card satisfies the session-list
    invariant: its times are the row timestamps floor-divided by 1000
    (so 1600000000000 ms is grouped under 1600000000 s), they are
    strictly ascending, and each normalized time that occurs among the
    rows has exactly one session. *)
Theorem get_review_log_session_invariant conn card_id :
  let rows := select_revlog conn card_id in
  let log := get_review_log conn card_id in
  ascending log
  ∧ NoDup (log.*1)
  ∧ (∀ t, t ∈ log.*1 ↔ ∃ row, row ∈ rows ∧ row.1 `div` 1000 = t)
  ∧ (∀ t trials, (t, trials) ∈ log ↔ trials = trials_at t rows ∧ trials ≠ [])
  ∧ (∀ ease, (1600000000000, ease) ∈ rows →
       ∃ trials, (1600000000, trials) ∈ log ∧ negb (ease =? 1) ∈ trials).
Proof.
  intros rows log. unfold log, get_review_log. fold rows.
  assert (Hkeys : ∀ t, t ∈ (review_sessions rows).*1
                       ↔ ∃ row, row ∈ rows ∧ row.1 `div` 1000 = t).
  { intros t. rewrite list_elem_of_fmap. split.
    - intros ([t' trials] & -> & Hin). simpl.
      apply elem_of_review_sessions in Hin as [-> Hne].
      unfold trials_at in Hne.
      destruct (filter (λ row : Z * Z, row.1 `div` 1000 = t') rows)
        as [|row rows'] eqn:Hf; [done|].
      assert (Hrow : row ∈ filter (λ row : Z * Z, row.1 `div` 1000 = t') rows)
        by (rewrite Hf; apply list_elem_of_here).
      apply list_elem_of_filter in Hrow as [Hrow Hin]. by exists row.
    - intros (row & Hin & Hrow). exists (t, trials_at t rows). split; [done|].
      apply elem_of_review_sessions. split; [done|].
      unfold trials_at. intros Hnil. apply fmap_nil_inv in Hnil.
      exact (filter_nil_not_elem_of _ rows row Hnil Hrow Hin). }
  split_and!.
  - apply review_sessions_ascending.
  - apply review_sessions_NoDup.
  - exact Hkeys.
  - intros t trials. apply elem_of_review_sessions.
  - intros ease Hin. exists (trials_at 1600000000 rows).
    assert (Hb : negb (ease =? 1) ∈ trials_at 1600000000 rows).
    { unfold trials_at. apply list_elem_of_fmap.
      exists (1600000000000, ease). split; [done|].
      by apply list_elem_of_filter. }
    split; [|done]. apply elem_of_review_sessions. split; [done|].
    intros Hnil. rewrite Hnil in Hb. by apply elem_of_nil in Hb.
Qed.

Lemma get_review_log_session_invariant_witness :
  let conn := MkConn [1; 2] [RevlogRow 1600000000000 1 3; RevlogRow 5000 2 1;
                             RevlogRow 1600000000999 1 1; RevlogRow 4000 1 2] in
  (1600000000000, 3) ∈ select_revlog conn 1
  ∧ get_review_log conn 1 = [(4, [true]); (1600000000, [true; false])]
  ∧ ∃ trials, (1600000000, trials) ∈ get_review_log conn 1
              ∧ negb (3 =? 1) ∈ trials.
Proof.
  intros conn.
  assert (Hin : (1600000000000, 3) ∈ select_revlog conn 1)
    by (vm_compute; apply list_elem_of_here).
  split_and!; [exact Hin | vm_compute; reflexivity |].
  exact (proj2 (proj2 (proj2 (proj2
           (get_review_log_session_invariant conn 1)))) 3 Hin).
Defined.

(** ** The emulator *)

Section Emulator.
Context `{E : Ebisu}.

(** The loop on any implementation: it applies the updates of
    [calls_from] in order, stops at the first that raises, and
    otherwise ends with the [last_review] of [last_from]. *)
Lemma emulate_loop review_log : ∀ (current : Model) last_review,
  for_each emulate_step review_log (current, last_review)
  = (current' ← replay (calls_from last_review review_log) current;
     mret (current', last_from last_review review_log)).
Proof.
  induction review_log as [|[timestamp trials] rest IH];
    intros current last_review; [done|].
  simpl for_each. destruct last_review as [last|]; simpl.
  - unfold replay; simpl.
    destruct (updateRecall current (sum trials) (len trials) (timestamp - last))
      as [current'|e]; simpl; [apply IH | done].
  - destruct (any trials); simpl; apply IH.
Qed.

Lemma replay_returns calls : ∀ m : Model,
  honours_update_pre E → Forall update_pre calls →
  ∃ m', replay calls m = Returned m'.
Proof.
  induction calls as [|c calls IH]; intros m HE Hpre; [by exists m|].
  apply Forall_cons in Hpre as [Hc Hpre].
  destruct (HE m c Hc) as [m1 Hm1].
  destruct (IH m1 HE Hpre) as [m' Hm']. exists m'.
  unfold replay in *; simpl. by rewrite Hm1.
Qed.
End Emulator.

Lemma spy_replay calls : ∀ m : spy_model,
  replay (E := spy) calls m
  = Returned (MkSpy (spy_half_life m) (spy_updates m ++ calls)).
Proof.
  induction calls as [|c calls IH]; intros [half_life updates].
  - simpl. by rewrite app_nil_r.
  - unfold replay in *; simpl. rewrite IH; simpl.
    destruct c. by rewrite <- app_assoc.
Qed.

Lemma update_calls_unfold review_log :
  update_calls review_log = calls_from None review_log.
Proof.
  unfold update_calls. rewrite (emulate_loop (E := spy)), spy_replay. done.
Qed.

Lemma last_from_Some review_log : ∀ prev,
  last_from (Some prev) review_log
  = Some (default prev (last (review_log.*1))).
Proof.
  induction review_log as [|[timestamp trials] rest IH]; intros last0; [done|].
  simpl last_from. rewrite IH, fmap_cons, last_cons; simpl.
  by destruct (last (rest.*1)).
Qed.

Lemma last_from_None review_log :
  last_from None review_log
  = if has_pass review_log then last (review_log.*1) else None.
Proof.
  induction review_log as [|[timestamp trials] rest IH]; [done|].
  rewrite fmap_cons, last_cons. unfold has_pass in *.
  cbn [last_from existsb fst snd orb]. destruct (any trials); cbn [orb].
  - rewrite last_from_Some. by destruct (last (rest.*1)).
  - rewrite IH. destruct (existsb _ rest) eqn:Hpass; [|done].
    destruct rest as [|[timestamp' trials'] rest']; [done|].
    rewrite fmap_cons, last_cons. by destruct (last (rest'.*1)).
Qed.

Lemma calls_from_no_pass review_log :
  has_pass review_log = false → calls_from None review_log = [].
Proof.
  induction review_log as [|[timestamp trials] rest IH]; [done|].
  simpl. destruct (any trials); [done|]. exact IH.
Qed.

Lemma calls_from_Some_length review_log : ∀ last,
  length (calls_from (Some last) review_log) = length review_log.
Proof.
  induction review_log as [|[timestamp trials] rest IH]; intros last0; [done|].
  simpl. by rewrite IH.
Qed.

(** Sessions before the first pass leave the loop where it started. *)
Lemma calls_from_skip pre post :
  has_pass pre = false →
  calls_from None (pre ++ post) = calls_from None post.
Proof.
  induction pre as [|[timestamp trials] pre IH]; [done|].
  simpl. destruct (any trials); [done|]. exact IH.
Qed.

Lemma calls_from_Some_pre review_log : ∀ last,
  ascending review_log → nonempty_trials review_log →
  Forall (λ t, last < t) (review_log.*1) →
  Forall update_pre (calls_from (Some last) review_log).
Proof.
  unfold ascending, nonempty_trials.
  induction review_log as [|[timestamp trials] rest IH];
    intros last0 Hasc Hne Hlt; [constructor|].
  rewrite fmap_cons in Hasc, Hlt; simpl in Hasc, Hlt.
  apply StronglySorted_inv in Hasc as [Hasc Hhd].
  apply Forall_cons in Hne as [Htrials Hne].
  apply Forall_cons in Hlt as [Hlt0 Hlt].
  simpl. constructor; [|by apply IH].
  unfold update_pre; simpl. pose proof (sum_bounds trials).
  assert (1 ≤ len trials)
    by (unfold len; destruct trials; [done|simpl; lia]).
  lia.
Qed.

Lemma calls_from_None_pre review_log :
  ascending review_log → nonempty_trials review_log →
  Forall update_pre (calls_from None review_log).
Proof.
  unfold ascending, nonempty_trials.
  induction review_log as [|[timestamp trials] rest IH];
    intros Hasc Hne; [constructor|].
  rewrite fmap_cons in Hasc; simpl in Hasc.
  apply StronglySorted_inv in Hasc as [Hasc Hhd].
  apply Forall_cons in Hne as [Htrials Hne].
  simpl. destruct (any trials); [|by apply IH].
  by apply calls_from_Some_pre.
Qed.

Lemma has_pass_last review_log :
  has_pass review_log = true → ∃ t_last, last (review_log.*1) = Some t_last.
Proof.
  destruct review_log as [|s rest]; [done|]. intros _.
  rewrite fmap_cons, last_cons. destruct (last (rest.*1)); eauto.
Qed.

(** In a strictly ascending list the last element is the largest. *)
Lemma ascending_last_max (ts : list Z) t_last :
  StronglySorted Z.lt ts → last ts = Some t_last →
  Forall (λ t, t ≤ t_last) ts.
Proof.
  induction 1 as [|t ts Hs IH Hall]; intros Hlast; [constructor|].
  rewrite last_cons in Hlast. destruct (last ts) as [t'|] eqn:Hts.
  - injection Hlast as ->. constructor; [|by apply IH].
    rewrite Forall_forall in Hall.
    assert (t < t_last); [|lia]. apply Hall.
    apply last_Some in Hts as [ts' ->]. set_solver.
  - injection Hlast as ->. apply last_None in Hts as ->. by repeat constructor.
Qed.

(** [emulate] on any implementation: it replays the updates observed
    by the spy on the prior of half-life 600 and, unless one of them
    raises, returns a card exactly when some session has a pass. *)
Lemma emulate_replay `{E : Ebisu} card_id review_log :
  emulate card_id review_log
  = (current ← replay (update_calls review_log) (defaultModel 600);
     mret (MkCard card_id review_log current
             <$> (if has_pass review_log then last (review_log.*1)
                  else None))).
Proof.
  unfold emulate.
  rewrite emulate_loop, update_calls_unfold, last_from_None.
  change (10 * 60) with 600.
  destruct (replay _ _) as [current|e]; simpl; [|done].
  by destruct (if has_pass review_log then _ else _).
Qed.

Lemma update_calls_no_pass review_log :
  has_pass review_log = false → update_calls review_log = [].
Proof.
  intros Hpass. rewrite update_calls_unfold. by apply calls_from_no_pass.
Qed.

Lemma emulate_no_pass `{E : Ebisu} card_id review_log :
  has_pass review_log = false → emulate card_id review_log = Returned None.
Proof.
  intros Hpass.
  by rewrite emulate_replay, Hpass, update_calls_no_pass.
Qed.

(** C1.  When some session of the review log has a passing trial,
    the card that [emulate] returns has the time of the last session
    of the log as its [last_review] (the largest time, when the log is
    ascending); [emulate] does return a card on an aggregated log when
    Ebisu's updates return within their precondition; and on a log of
    one session no update is requested and the card's model is
    [defaultModel 600]. *)
Theorem emulate_last_review `{E : Ebisu} card_id review_log :
  has_pass review_log = true →
  ∃ t_last,
    last (review_log.*1) = Some t_last
    ∧ (ascending review_log → Forall (λ t, t ≤ t_last) (review_log.*1))
    ∧ (∀ r, emulate card_id review_log = Returned r →
         ∃ current, r = Some (MkCard card_id review_log current t_last))
    ∧ (honours_update_pre E → ascending review_log →
       nonempty_trials review_log →
         ∃ current, emulate card_id review_log
                    = Returned (Some (MkCard card_id review_log current t_last)))
    ∧ (∀ s, review_log = [s] →
         update_calls review_log = []
         ∧ emulate card_id review_log
           = Returned (Some (MkCard card_id review_log (defaultModel 600) t_last))).
Proof.
  intros Hpass. destruct (has_pass_last _ Hpass) as [t_last Hlast].
  exists t_last. split_and!; [done|intros Hasc; by apply ascending_last_max|..].
  - intros r. rewrite emulate_replay, Hpass, Hlast.
    destruct (replay _ _) as [current|e]; simpl; [|done].
    intros [= <-]. by exists current.
  - intros HE Hasc Hne. rewrite emulate_replay, Hpass, Hlast.
    destruct (replay_returns (update_calls review_log) (defaultModel 600) HE)
      as [current Hcur].
    { rewrite update_calls_unfold. by apply calls_from_None_pre. }
    exists current. by rewrite Hcur.
  - intros s ->.
    assert (Hcalls : update_calls [s] = []).
    { rewrite update_calls_unfold. destruct s as [timestamp trials]; simpl.
      by destruct (any trials). }
    split; [done|].
    rewrite emulate_replay, Hpass, Hlast, Hcalls. done.
Qed.

Lemma emulate_last_review_witness :
  has_pass [(10, [false]); (20, [true; false]); (50, [false]); (90, [true])] = true
  ∧ has_pass [(20, [true; false])] = true
  ∧ emulate (E := spy) 7 [(10, [false]); (20, [true; false]); (50, [false]); (90, [true])]
    = Returned (Some (MkCard (E := spy) 7
        [(10, [false]); (20, [true; false]); (50, [false]); (90, [true])]
        (MkSpy 600 [MkCall 0 1 30; MkCall 1 1 40]) 90))
  ∧ ∃ t_last, last ([(20, [true; false])].*1) = Some t_last
      ∧ emulate (E := spy) 7 [(20, [true; false])]
        = Returned (Some (MkCard (E := spy) 7 [(20, [true; false])]
                                 (MkSpy 600 []) t_last)).
Proof.
  split_and!; [reflexivity..|].
  destruct (emulate_last_review (E := spy) 7 [(20, [true; false])] eq_refl)
    as (t_last & Hlast & _ & _ & _ & Hone).
  exists t_last. split; [exact Hlast|].
  exact (proj2 (Hone _ eq_refl)).
Defined.

(** C2.  When no session of the review log has a passing trial (the
    empty log included), [emulate] returns [None]: it requests no
    update, it raises nothing whatever the implementation of Ebisu,
    and what it returns is not a card. *)
Theorem emulate_no_pass_no_result `{E : Ebisu} card_id review_log :
  has_pass review_log = false →
  emulate card_id review_log = Returned None
  ∧ update_calls review_log = []
  ∧ (∀ e, emulate card_id review_log ≠ Raised e)
  ∧ (∀ card, emulate card_id review_log ≠ Returned (Some card)).
Proof.
  intros Hpass.
  rewrite (emulate_no_pass card_id _ Hpass), (update_calls_no_pass _ Hpass).
  done.
Qed.

Lemma emulate_no_pass_no_result_witness :
  (has_pass [] = false ∧ emulate (E := spy) 3 [] = Returned None)
  ∧ (has_pass [(5, [false]); (9, [false; false])] = false
     ∧ emulate (E := spy) 3 [(5, [false]); (9, [false; false])] = Returned None).
Proof.
  split; (split; [reflexivity|]).
  - exact (proj1 (emulate_no_pass_no_result (E := spy) 3 [] eq_refl)).
  - exact (proj1 (emulate_no_pass_no_result (E := spy) 3
                    [(5, [false]); (9, [false; false])] eq_refl)).
Defined.

(** C3.  On a review log that is strictly ascending and whose
    sessions all have a trial, every update that [emulate] requests
    has [tnow > 0], [total ≥ 1] and [0 ≤ successes ≤ total]; and no
    update is requested up to and including the first session with a
    pass: the updates are one for each session after it. *)
Theorem update_calls_within_precondition review_log :
  ascending review_log → nonempty_trials review_log →
  Forall update_pre (update_calls review_log)
  ∧ (∀ pre s post, review_log = pre ++ s :: post → has_pass pre = false →
       update_calls (pre ++ [s]) = []
       ∧ (any s.2 = true →
          length (update_calls review_log) = length post)).
Proof.
  intros Hasc Hne. split.
  - rewrite update_calls_unfold. by apply calls_from_None_pre.
  - intros pre [timestamp trials] post -> Hpre.
    rewrite !update_calls_unfold, !calls_from_skip by done.
    simpl. split; [by destruct (any trials)|].
    intros ->. apply calls_from_Some_length.
Qed.

Lemma update_calls_within_precondition_witness :
  let log := [(10, [false]); (20, [true; false]); (50, [false]); (90, [true; true])] in
  ascending log ∧ nonempty_trials log
  ∧ update_calls log = [MkCall 0 1 30; MkCall 2 2 40]
  ∧ Forall update_pre (update_calls log).
Proof.
  intros log.
  assert (Hasc : ascending log).
  { unfold ascending, log. simpl. repeat constructor; lia. }
  assert (Hne : nonempty_trials log) by (repeat constructor; discriminate).
  split_and!; [exact Hasc | exact Hne | reflexivity |].
  exact (proj1 (update_calls_within_precondition log Hasc Hne)).
Defined.

(** ** The recall queries *)

(** C6.  Called without [tnow], [recall_at] asks Ebisu, in exact mode,
    for the recall after [utcnow] seconds: the clock reading itself
    is passed as the elapsed time, [last_review] is not subtracted.
    On the card emulated from one passing review at second 1000 and
    with the clock at 2000, it asks for the recall after 2000 seconds,
    where [main] asks [recall_at] for the recall after 2000 - 1000. *)
Theorem recall_at_default_elapsed :
  (∀ (E : Ebisu) (self : EbisuCard) utcnow,
     (recall_at self None utcnow).1 = predictRecall (model self) utcnow true)
  ∧ ∃ card : EbisuCard (E := spy),
      emulate (E := spy) 1 [(1000, [true])] = Returned (Some card)
      ∧ (recall_at card None 2000).1 = Predicted (MkSpy 600 []) 2000 true
      ∧ main_recall_now card 2000 = Predicted (MkSpy 600 []) 1000 true
      ∧ (recall_at card None 2000).1
        ≠ (recall_at card (Some (2000 - last_review card)) 2000).1.
Proof.
  split; [done|].
  exists (MkCard (E := spy) 1 [(1000, [true])] (MkSpy 600 []) 1000).
  split_and!; [reflexivity..|]. simpl. discriminate.
Qed.

(** C9, as stated, fails: two calls of [recall_at] on the same card,
    both without [tnow], one second apart on the clock, ask Ebisu for
    the recall at different times. *)
Lemma recall_at_default_twice_differs :
  let card := MkCard (E := spy) 1 [(1000, [true])] (MkSpy 600 []) 1000 in
  let first := recall_at card None 2000 in
  let second := recall_at first.2 None 2001 in
  first.1 ≠ second.1.
Proof. simpl. discriminate. Qed.

(** C9, amended.  Neither query changes the card, [recall_when] called
    twice with the same percentile returns the same value, and so does
    [recall_at] called twice with the same explicit [tnow], or without
    [tnow] when the clock reads the same at both calls. *)
Theorem recall_queries_idempotent `{E : Ebisu} (self : EbisuCard) :
  (∀ tnow utcnow1 utcnow2,
     let first := recall_at self (Some tnow) utcnow1 in
     let second := recall_at first.2 (Some tnow) utcnow2 in
     first.1 = second.1 ∧ first.2 = self ∧ second.2 = self)
  ∧ (∀ utcnow,
       let first := recall_at self None utcnow in
       let second := recall_at first.2 None utcnow in
       first.1 = second.1 ∧ first.2 = self ∧ second.2 = self)
  ∧ (∀ percentile,
       let first := recall_when self percentile in
       let second := recall_when first.2 percentile in
       first.1 = second.1 ∧ first.2 = self ∧ second.2 = self)
  ∧ (∀ tnow utcnow percentile,
       model (recall_at self tnow utcnow).2 = model self
       ∧ model (recall_when self percentile).2 = model self).
Proof. done. Qed.

(** ** [fuzzy_delta] *)

(** The loop always assigns [fuzzy]: the last unit is never skipped. *)
Lemma fuzzy_loop_units_Some dt : ∃ fuzzy, fuzzy_loop units dt = Some fuzzy.
Proof.
  unfold units, fuzzy_loop.
  repeat match goal with
         | |- context [bool_decide (Z.abs dt < ?b)] =>
             destruct (bool_decide (Z.abs dt < b))
         end; simpl; eauto.
Qed.

Lemma fuzzy_delta_returns dt raw : ∃ s, fuzzy_delta dt raw = Returned s.
Proof.
  unfold fuzzy_delta. destruct (dt =? 0); [by eexists|].
  destruct (fuzzy_loop_units_Some dt) as [fuzzy ->].
  destruct raw; simpl; repeat case_bool_decide; by eexists.
Qed.

(** From two minutes up to two hours the unit is the minute, and from
    two hours up to two days it is the hour. *)
Lemma fuzzy_loop_minutes dt :
  2 * 60 ≤ Z.abs dt < 2 * (60 * 60) →
  fuzzy_loop units dt
  = Some ("about " +:+ fmt_d (Z.abs dt `div` 60) +:+ " minutes")%string.
Proof.
  intros Hdt. unfold units, fuzzy_loop.
  repeat (rewrite bool_decide_eq_true_2 by lia; simpl).
  rewrite (bool_decide_eq_false_2 (Z.abs dt < 2 * 60)) by lia; simpl.
  assert (2 ≤ Z.abs dt `div` 60) by (apply Z.div_le_lower_bound; lia).
  rewrite bool_decide_eq_true_2 by lia. done.
Qed.

Lemma fuzzy_loop_hours dt :
  2 * (60 * 60) ≤ Z.abs dt < 2 * (60 * 60 * 24) →
  fuzzy_loop units dt
  = Some ("about " +:+ fmt_d (Z.abs dt `div` (60 * 60)) +:+ " hours")%string.
Proof.
  intros Hdt. unfold units, fuzzy_loop.
  repeat (rewrite bool_decide_eq_true_2 by lia; simpl).
  rewrite (bool_decide_eq_false_2 (Z.abs dt < 2 * (60 * 60))) by lia; simpl.
  assert (2 ≤ Z.abs dt `div` (60 * 60)) by (apply Z.div_le_lower_bound; lia).
  rewrite bool_decide_eq_true_2 by lia. done.
Qed.

(** C8, as stated, fails: [fuzzy_delta(3700, raw=True)] does not start
    with "about 1 hour", and [fuzzy_delta(-90000)] names no day. *)
Lemma fuzzy_delta_examples_differ :
  ¬ ((∃ s, fuzzy_delta 3700 true = Returned s
           ∧ startswith s "about 1 hour" = true)
     ∨ (∃ s, fuzzy_delta (-90000) false = Returned s
             ∧ contains s "day" = true)).
Proof.
  intros [(s & Hs & Hpre)|(s & Hs & Hday)].
  - vm_compute in Hs. injection Hs as <-. vm_compute in Hpre. discriminate.
  - vm_compute in Hs. injection Hs as <-. vm_compute in Hday. discriminate.
Qed.

(** C8, amended.  [fuzzy_delta(0)] is "now" whatever [raw] is;
    [fuzzy_delta(3700, raw=True)] is "about 61 minutes", and
    [fuzzy_delta(-90000)] is "about 25 hours ago", which ends with
    "ago" and counts hours: a unit is used from twice its interval
    on. *)
Theorem fuzzy_delta_examples :
  (∀ raw, fuzzy_delta 0 raw = Returned "now"%string)
  ∧ fuzzy_delta 3700 true = Returned "about 61 minutes"%string
  ∧ fuzzy_delta (-90000) false = Returned "about 25 hours ago"%string
  ∧ endswith "about 25 hours ago" "ago" = true
  ∧ contains "about 25 hours ago" "hour" = true.
Proof. split_and!; [by intros []|reflexivity..]. Qed.

(** ** The summary *)

Section Summary.
Context `{E : Ebisu}.

(** On aggregated logs an implementation that honours the
    precondition of its update never makes [emulate] raise. *)
Lemma emulate_get_review_log_returns conn card_id :
  honours_update_pre E →
  ∃ r, emulate card_id (get_review_log conn card_id) = Returned r.
Proof.
  intros HE. rewrite emulate_replay.
  destruct (replay_returns (update_calls (get_review_log conn card_id))
              (defaultModel 600) HE) as [current ->]; [|by eexists].
  rewrite update_calls_unfold. unfold get_review_log.
  apply calls_from_None_pre;
    [apply review_sessions_ascending | apply review_sessions_nonempty_trials].
Qed.

(** The totals after the loop over some cards, when it returns. *)
Lemma main_loop_totals conn card_ids : ∀ total_cards total_reviews totals,
  for_each (main_step conn) card_ids (total_cards, total_reviews)
    = Returned totals →
  let emulated :=
    filter (λ card_id, is_card (emulate card_id (get_review_log conn card_id)))
           card_ids in
  totals.1 = total_cards + len emulated
  ∧ totals.2
    = total_reviews
      + sum_Z ((λ card_id, len (get_review_log conn card_id) - 1) <$> emulated).
Proof.
  induction card_ids as [|card_id card_ids IH];
    intros total_cards total_reviews totals Hloop emulated.
  - injection Hloop as <-. simpl. unfold len; simpl. lia.
  - subst emulated. simpl in Hloop. rewrite filter_cons.
    destruct (emulate card_id (get_review_log conn card_id))
      as [[card|]|e]; simpl in Hloop; [| |done].
    + apply IH in Hloop as [-> ->]. rewrite decide_True by done.
      rewrite fmap_cons. unfold len; simpl length; simpl sum_Z. lia.
    + apply IH in Hloop as [-> ->]. by rewrite decide_False by (by intros ?).
Qed.

Lemma main_loop_returns conn card_ids : ∀ totals,
  honours_update_pre E →
  ∃ totals', for_each (main_step conn) card_ids totals = Returned totals'.
Proof.
  induction card_ids as [|card_id card_ids IH]; intros [tc tr] HE;
    [by eexists|].
  simpl. destruct (emulate_get_review_log_returns conn card_id HE) as [r ->].
  destruct r; simpl; by apply IH.
Qed.

End Summary.

Lemma main_loop_no_pass `{E : Ebisu} conn card_ids : ∀ totals,
  Forall (λ card_id, has_pass (get_review_log conn card_id) = false) card_ids →
  for_each (main_step conn) card_ids totals = Returned totals.
Proof.
  induction card_ids as [|card_id card_ids IH]; intros [tc tr] Hall; [done|].
  apply Forall_cons in Hall as [Hpass Hall].
  simpl. rewrite (emulate_no_pass card_id _ Hpass). simpl. by apply IH.
Qed.

(** The sessions of a card are as many as the distinct seconds among
    its rows. *)
Lemma len_get_review_log conn card_id :
  len (get_review_log conn card_id)
  = len (remove_dups ((λ row : Z * Z, row.1 `div` 1000)
                        <$> select_revlog conn card_id)).
Proof.
  unfold len. f_equal.
  transitivity (length ((get_review_log conn card_id).*1));
    [by rewrite length_fmap|].
  apply Permutation_length, NoDup_Permutation.
  - apply review_sessions_NoDup.
  - apply NoDup_remove_dups.
  - intros t. rewrite elem_of_remove_dups, !list_elem_of_fmap. split.
    + intros ([t' trials] & -> & Hin). simpl.
      apply elem_of_review_sessions in Hin as [-> Hne].
      unfold trials_at in Hne.
      destruct (filter (λ row : Z * Z, row.1 `div` 1000 = t')
                       (select_revlog conn card_id)) as [|row rows'] eqn:Hf;
        [done|].
      assert (Hrow : row ∈ filter (λ row : Z * Z, row.1 `div` 1000 = t')
                                  (select_revlog conn card_id))
        by (rewrite Hf; apply list_elem_of_here).
      apply list_elem_of_filter in Hrow as [Hrow Hin]. by exists row.
    + intros (row & -> & Hin).
      exists (row.1 `div` 1000, trials_at (row.1 `div` 1000)
                                          (select_revlog conn card_id)).
      split; [done|]. apply elem_of_review_sessions. split; [done|].
      unfold trials_at. intros Hnil. apply fmap_nil_inv in Hnil.
      exact (filter_nil_not_elem_of _ _ row Hnil eq_refl Hin).
Qed.

(** C7.  When no card of the collection has a review log with a pass
    (an empty collection included), the loop of [main] ends with
    [total_cards = 0] and [total_reviews = 0], and the summary line
    then raises [ZeroDivisionError]: nothing is reported. *)
Theorem main_without_results_raises `{E : Ebisu} conn :
  Forall (λ card_id, has_pass (get_review_log conn card_id) = false)
         (get_all_card_ids conn) →
  main_totals conn = Returned (0, 0)
  ∧ main conn = Raised ZeroDivisionError.
Proof.
  intros Hall.
  assert (Htotals : main_totals conn = Returned (0, 0))
    by (by apply main_loop_no_pass).
  split; [done|]. unfold main. by rewrite Htotals.
Qed.

Lemma main_without_results_raises_witness :
  main (E := spy) (MkConn [] []) = Raised ZeroDivisionError
  ∧ main (E := spy) (MkConn [1; 2] [RevlogRow 1000 1 1; RevlogRow 5000 2 1;
                                    RevlogRow 9000 1 1])
    = Raised ZeroDivisionError.
Proof.
  split.
  - apply (main_without_results_raises (E := spy) (MkConn [] [])).
    constructor.
  - apply (main_without_results_raises (E := spy)).
    vm_compute. repeat constructor.
Defined.

(** C10.  When [main] prints its summary, the number of cards in it
    is the number of cards for which [emulate] returned a card, and
    the number of reviews is the sum over those cards of the number of
    sessions of the card's review log minus one; that number of
    sessions is the number of distinct seconds among the card's rows,
    so a card whose rows all fall in one second adds 0.  [main] does
    print a summary when some card is emulated and Ebisu's updates
    return within their precondition. *)
Theorem main_reviews_total `{E : Ebisu} conn :
  (∀ summary, main conn = Returned summary →
     imported_cards summary = len (emulated_cards conn)
     ∧ imported_reviews summary
       = sum_Z ((λ card_id, len (get_review_log conn card_id) - 1)
                  <$> emulated_cards conn))
  ∧ (honours_update_pre E → emulated_cards conn ≠ [] →
       ∃ summary, main conn = Returned summary)
  ∧ (∀ card_id,
       len (get_review_log conn card_id)
       = len (remove_dups ((λ row : Z * Z, row.1 `div` 1000)
                             <$> select_revlog conn card_id)))
  ∧ (∀ card_id t,
       select_revlog conn card_id ≠ [] →
       Forall (λ row : Z * Z, row.1 `div` 1000 = t) (select_revlog conn card_id) →
       len (get_review_log conn card_id) - 1 = 0).
Proof.
  split_and!.
  - intros summary. unfold main, main_totals.
    destruct (for_each _ _ _) as [[total_cards total_reviews]|e] eqn:Hloop;
      simpl; [|done].
    apply main_loop_totals in Hloop as [Hcards Hreviews]. simpl in *.
    destruct (true_div total_reviews total_cards) as [avg|e]; simpl; [|done].
    intros [= <-]. simpl. unfold emulated_cards. split; lia.
  - intros HE Hsome. unfold main, main_totals.
    destruct (main_loop_returns conn (get_all_card_ids conn) (0, 0) HE)
      as [[total_cards total_reviews] Hloop].
    rewrite Hloop. simpl.
    apply main_loop_totals in Hloop as [Hcards _]. simpl in Hcards.
    fold (emulated_cards conn) in Hcards.
    assert (0 < total_cards).
    { unfold len in Hcards. destruct (emulated_cards conn); [done|].
      simpl in Hcards. lia. }
    destruct total_cards as [|d|d]; [lia| |lia]. by eexists.
  - apply len_get_review_log.
  - intros card_id t Hne Hall. unfold get_review_log.
    by rewrite (review_sessions_single t).
Qed.

Lemma main_reviews_total_witness :
  let conn := MkConn [1; 2; 3]
    [ RevlogRow 1000 1 3; RevlogRow 1500 1 1; RevlogRow 5000 1 1;
      RevlogRow 9000 1 4;
      RevlogRow 7000 2 3; RevlogRow 7001 2 1; RevlogRow 7002 2 2;
      RevlogRow 2000 3 1; RevlogRow 3000 3 1 ] in
  main (E := spy) conn = Returned (MkSummary 2 2 (Qmake 2 2))
  ∧ emulated_cards (E := spy) conn = [1; 2]
  ∧ len (get_review_log conn 1) - 1 = 2
  ∧ select_revlog conn 2 = [(7000, 3); (7001, 1); (7002, 2)]
  ∧ len (get_review_log conn 2) - 1 = 0
  ∧ imported_reviews (MkSummary 2 2 (Qmake 2 2))
    = sum_Z ((λ card_id, len (get_review_log conn card_id) - 1)
               <$> emulated_cards (E := spy) conn).
Proof.
  intros conn.
  assert (Hmain : main (E := spy) conn = Returned (MkSummary 2 2 (Qmake 2 2)))
    by (vm_compute; reflexivity).
  assert (Hrows : select_revlog conn 2 = [(7000, 3); (7001, 1); (7002, 2)])
    by (vm_compute; reflexivity).
  split_and!; [exact Hmain | vm_compute; reflexivity | vm_compute; reflexivity
               | exact Hrows | |].
  - apply (proj2 (proj2 (proj2 (main_reviews_total (E := spy) conn))) 2 7).
    + rewrite Hrows. discriminate.
    + rewrite Hrows. repeat constructor.
  - exact (proj2 (proj1 (main_reviews_total (E := spy) conn) _ Hmain)).
Defined.


(** * Further properties of the aggregator *)

(** The review log is determined by its times: the trials of each
    session are the outcomes of the rows of its second. *)
Lemma review_sessions_canonical rows :
  review_sessions rows
  = (λ t, (t, trials_at t rows)) <$> (review_sessions rows).*1.
Proof.
  assert (Hall : Forall (λ s : session, s.2 = trials_at s.1 rows)
                        (review_sessions rows)).
  { apply Forall_forall. intros [t trials] Hin.
    by apply elem_of_review_sessions in Hin as [-> _]. }
  induction Hall as [|[t trials] l Hs _ IH]; [done|].
  simpl in Hs. subst trials. rewrite !fmap_cons; simpl. by rewrite <- IH.
Qed.

Lemma elem_of_review_sessions_times rows t :
  t ∈ (review_sessions rows).*1 ↔ ∃ row, row ∈ rows ∧ row.1 `div` 1000 = t.
Proof.
  rewrite list_elem_of_fmap. split.
  - intros ([t' trials] & -> & Hin). simpl.
    apply elem_of_review_sessions in Hin as [-> Hne].
    unfold trials_at in Hne.
    destruct (filter (λ row : Z * Z, row.1 `div` 1000 = t') rows)
      as [|row rows'] eqn:Hf; [done|].
    assert (Hrow : row ∈ filter (λ row : Z * Z, row.1 `div` 1000 = t') rows)
      by (rewrite Hf; apply list_elem_of_here).
    apply list_elem_of_filter in Hrow as [Hrow Hin]. by exists row.
  - intros (row & Hin & Hrow). exists (t, trials_at t rows). split; [done|].
    apply elem_of_review_sessions. split; [done|].
    unfold trials_at. intros Hnil. apply fmap_nil_inv in Hnil.
    exact (filter_nil_not_elem_of _ rows row Hnil Hrow Hin).
Qed.

(** Among distinct keys exactly one is a given key of the list. *)
Lemma sum_Z_indicator (keys : list Z) k :
  NoDup keys → k ∈ keys →
  sum_Z ((λ t, if decide (k = t) then 1 else 0) <$> keys) = 1.
Proof.
  induction keys as [|t keys IH]; intros Hnd Hin.
  - by apply elem_of_nil in Hin.
  - apply NoDup_cons in Hnd as [Hnotin Hnd]. rewrite fmap_cons; simpl.
    case_decide as Heq.
    + subst t. replace (sum_Z _) with 0; [done|].
      clear IH Hin Hnd. induction keys as [|t keys IH]; [done|].
      rewrite fmap_cons; simpl. apply not_elem_of_cons in Hnotin as [Hne Hnotin].
      rewrite decide_False by done. by rewrite <- IH.
    + apply elem_of_cons in Hin as [->|Hin]; [done|]. by rewrite IH.
Qed.

Lemma sum_Z_indicator_le (keys : list Z) k :
  NoDup keys →
  0 ≤ sum_Z ((λ t, if decide (k = t) then 1 else 0) <$> keys) ≤ 1.
Proof.
  intros Hnd. destruct (decide (k ∈ keys)) as [Hin|Hnotin].
  - rewrite sum_Z_indicator by done. lia.
  - replace (sum_Z _) with 0; [lia|].
    clear Hnd. induction keys as [|t keys IH]; [done|].
    rewrite fmap_cons; simpl. apply not_elem_of_cons in Hnotin as [Hne Hnotin].
    rewrite decide_False by done. by rewrite <- IH.
Qed.

Lemma sum_Z_add {A : Type} (f g : A → Z) (l : list A) :
  sum_Z ((λ x, f x + g x) <$> l) = sum_Z (f <$> l) + sum_Z (g <$> l).
Proof.
  induction l as [|x l IH]; [done|]. rewrite !fmap_cons; simpl. lia.
Qed.

(** Counting the rows that satisfy [P] second by second, over keys
    that are distinct and contain every second of the rows, counts
    each such row once. *)
Lemma sum_Z_by_second (P : Z * Z → Prop) `{∀ row, Decision (P row)}
    (keys : list Z) (rows : list (Z * Z)) :
  NoDup keys →
  Forall (λ row : Z * Z, row.1 `div` 1000 ∈ keys) rows →
  sum_Z ((λ t, len (filter (λ row : Z * Z, row.1 `div` 1000 = t ∧ P row) rows))
           <$> keys)
  = len (filter P rows).
Proof.
  intros Hnd Hall. unfold len.
  induction Hall as [|row rows Hrow _ IH].
  - simpl. induction keys as [|t keys IHk]; [done|].
    apply NoDup_cons in Hnd as [_ Hnd]. rewrite fmap_cons; simpl.
    by rewrite IHk.
  - rewrite (filter_cons P).
    transitivity
      (sum_Z ((λ t, (if decide (row.1 `div` 1000 = t) then 1 else 0)
                      * (if decide (P row) then 1 else 0)
                    + Z.of_nat (length
                        (filter (λ row : Z * Z, row.1 `div` 1000 = t ∧ P row)
                                rows)))
                <$> keys)).
    { f_equal. apply list_fmap_ext. intros _ t _.
      rewrite filter_cons. repeat case_decide; simpl; try lia; tauto. }
    rewrite (sum_Z_add
               (λ t, (if decide (row.1 `div` 1000 = t) then 1 else 0)
                     * (if decide (P row) then 1 else 0))), IH.
    pose proof (sum_Z_indicator keys (row.1 `div` 1000) Hnd Hrow) as Hone.
    destruct (decide (P row)) as [HP|HP]; simpl.
    + replace (sum_Z _) with 1; [lia|].
      rewrite <- Hone. f_equal. apply list_fmap_ext. intros _ t _.
      case_decide; lia.
    + replace (sum_Z _) with 0; [lia|]. clear.
      induction keys as [|t keys IHk]; [done|].
      rewrite fmap_cons; simpl. rewrite <- IHk. case_decide; lia.
Qed.

(** X1.  Aggregation loses no review: over the sessions of a card's
    review log, the trials add up to the number of the card's rows
    and the successes to the number of its rows whose button is not
    1. *)
Theorem get_review_log_keeps_every_row conn card_id :
  let rows := select_revlog conn card_id in
  let log := get_review_log conn card_id in
  sum_Z ((λ s : session, len s.2) <$> log) = len rows
  ∧ sum_Z ((λ s : session, sum s.2) <$> log)
    = len (filter (λ row : Z * Z, row.2 ≠ 1) rows).
Proof.
  intros rows log. unfold log, get_review_log. fold rows.
  assert (Hkeys : Forall (λ row : Z * Z,
                     row.1 `div` 1000 ∈ (review_sessions rows).*1) rows).
  { apply Forall_forall. intros row Hin.
    apply elem_of_review_sessions_times. by exists row. }
  pose proof (review_sessions_NoDup rows) as Hnd.
  rewrite (review_sessions_canonical rows).
  set (keys := (review_sessions rows).*1) in *.
  rewrite <- !list_fmap_compose.
  split.
  - transitivity (len (filter (λ _ : Z * Z, True) rows)).
    + rewrite <- (sum_Z_by_second (λ _, True) _ rows Hnd Hkeys).
      f_equal. apply list_fmap_ext. intros _ t _. simpl.
      rewrite len_trials_at. unfold len. do 2 f_equal.
      apply list_filter_iff. tauto.
    + unfold len. do 2 f_equal. clear.
      induction rows as [|row rows IH]; [done|].
      rewrite filter_cons. rewrite decide_True by done. by rewrite IH.
  - rewrite <- (sum_Z_by_second (λ row : Z * Z, row.2 ≠ 1) _ rows Hnd Hkeys).
    f_equal. apply list_fmap_ext. intros _ t _. simpl. apply sum_trials_at.
Qed.

Lemma has_pass_true_iff (review_log : list session) :
  has_pass review_log = true
  ↔ ∃ t trials, (t, trials) ∈ review_log ∧ true ∈ trials.
Proof.
  unfold has_pass. rewrite existsb_exists. split.
  - intros ([t trials] & Hin & Hany). exists t, trials.
    split; [by apply list_elem_of_In|].
    unfold any in Hany. apply existsb_exists in Hany as ([] & Hb & Hid);
      [by apply list_elem_of_In|done].
  - intros (t & trials & Hin & Htrue). exists (t, trials).
    split; [by apply list_elem_of_In|].
    unfold any. apply existsb_exists. exists true.
    split; [by apply list_elem_of_In|done].
Qed.

Lemma emulate_None_iff `{E : Ebisu} card_id review_log :
  emulate card_id review_log = Returned None ↔ has_pass review_log = false.
Proof.
  split; [|apply emulate_no_pass].
  destruct (has_pass review_log) eqn:Hpass; [|done].
  destruct (has_pass_last _ Hpass) as [t_last Hlast].
  rewrite emulate_replay, Hpass, Hlast.
  by destruct (replay _ _).
Qed.

(** X2.  A card has a passing session exactly when one of its rows
    has a button other than 1; so [emulate] returns [None] for a card
    exactly when all its reviews, if any, were answered with button 1,
    and a card without rows has an empty review log. *)
Theorem emulate_None_iff_only_again `{E : Ebisu} conn card_id :
  (has_pass (get_review_log conn card_id) = true
   ↔ ∃ r, r ∈ revlog conn ∧ rl_cid r = card_id ∧ rl_ease r ≠ 1)
  ∧ (emulate card_id (get_review_log conn card_id) = Returned None
     ↔ ∀ r, r ∈ revlog conn → rl_cid r = card_id → rl_ease r = 1)
  ∧ (get_review_log conn card_id = []
     ↔ ∀ r, r ∈ revlog conn → rl_cid r ≠ card_id).
Proof.
  assert (Hrows : ∀ row, row ∈ select_revlog conn card_id
            ↔ ∃ r, r ∈ revlog conn ∧ rl_cid r = card_id
                   ∧ row = (rl_id r, rl_ease r)).
  { intros row. unfold select_revlog. rewrite list_elem_of_fmap.
    setoid_rewrite list_elem_of_filter. split.
    - intros (r & -> & Hcid & Hr). by exists r.
    - intros (r & Hr & Hcid & ->). by exists r. }
  assert (Hpass : has_pass (get_review_log conn card_id) = true
            ↔ ∃ r, r ∈ revlog conn ∧ rl_cid r = card_id ∧ rl_ease r ≠ 1).
  { rewrite has_pass_true_iff. unfold get_review_log. split.
    - intros (t & trials & Hin & Htrue).
      apply elem_of_review_sessions in Hin as [-> _].
      unfold trials_at in Htrue.
      apply list_elem_of_fmap in Htrue as ([timestamp button] & Hb & Hrow).
      apply list_elem_of_filter in Hrow as [_ Hrow].
      apply Hrows in Hrow as (r & Hr & Hcid & [= -> ->]).
      exists r. split_and!; [done..|]. simpl in Hb.
      destruct (Z.eqb_spec (rl_ease r) 1); [done|lia].
    - intros (r & Hr & Hcid & Hease).
      set (t := rl_id r `div` 1000).
      assert (Htrue : true ∈ trials_at t (select_revlog conn card_id)).
      { unfold trials_at. apply list_elem_of_fmap.
        exists (rl_id r, rl_ease r). split.
        - simpl. by destruct (Z.eqb_spec (rl_ease r) 1).
        - apply list_elem_of_filter. split; [done|].
          apply Hrows. by exists r. }
      exists t, (trials_at t (select_revlog conn card_id)).
      split; [|done]. apply elem_of_review_sessions. split; [done|].
      intros Hnil. rewrite Hnil in Htrue. by apply elem_of_nil in Htrue. }
  split_and!; [exact Hpass| |].
  - rewrite emulate_None_iff. split.
    + intros Hno r Hr Hcid. destruct (decide (rl_ease r = 1)); [done|].
      assert (has_pass (get_review_log conn card_id) = true)
        by (apply Hpass; by exists r).
      congruence.
    + intros Hall. apply not_true_is_false. intros Hp.
      apply Hpass in Hp as (r & Hr & Hcid & Hease).
      by specialize (Hall r Hr Hcid).
  - split.
    + intros Hnil r Hr Hcid.
      assert (Hin : rl_id r `div` 1000 ∈ (get_review_log conn card_id).*1).
      { apply elem_of_review_sessions_times. exists (rl_id r, rl_ease r).
        split; [|done]. apply Hrows. by exists r. }
      rewrite Hnil in Hin. by apply elem_of_nil in Hin.
    + intros Hnone. unfold get_review_log.
      replace (select_revlog conn card_id) with (@nil (Z * Z)); [done|].
      symmetry. destruct (select_revlog conn card_id) as [|row rows] eqn:Hsel;
        [done|].
      destruct (proj1 (Hrows row) (list_elem_of_here _ _))
        as (r & Hr & Hcid & _).
      by destruct (Hnone r Hr).
Qed.

Lemma emulate_None_iff_only_again_witness :
  let conn := MkConn [1; 2; 9] [RevlogRow 1000 1 3; RevlogRow 2000 2 1;
                                RevlogRow 5000 2 1] in
  emulate (E := spy) 2 (get_review_log conn 2) = Returned None
  ∧ get_review_log conn 9 = []
  ∧ has_pass (get_review_log conn 1) = true.
Proof.
  intros conn. split_and!.
  - apply (proj2 (proj1 (proj2 (emulate_None_iff_only_again (E := spy) conn 2)))).
    intros r Hr Hcid.
    repeat (apply elem_of_cons in Hr as [->|Hr]); try done.
    by apply elem_of_nil in Hr.
  - apply (proj2 (proj2 (proj2 (emulate_None_iff_only_again (E := spy) conn 9)))).
    intros r Hr.
    repeat (apply elem_of_cons in Hr as [->|Hr]); try done.
    by apply elem_of_nil in Hr.
  - apply (proj2 (proj1 (emulate_None_iff_only_again (E := spy) conn 1))).
    exists (RevlogRow 1000 1 3). split_and!; [apply list_elem_of_here|done|done].
Defined.

(** ** The order of the rows *)

Lemma sum_Permutation trials trials' :
  trials ≡ₚ trials' → sum trials = sum trials'.
Proof.
  induction 1 as [|b l l' _ IH|b1 b2 l|l1 l2 l3 _ IH1 _ IH2]; simpl; lia.
Qed.

Lemma any_Permutation trials trials' :
  trials ≡ₚ trials' → any trials = any trials'.
Proof.
  unfold any.
  induction 1 as [|b l l' _ IH|b1 b2 l|l1 l2 l3 _ IH1 _ IH2]; simpl;
    [done|by rewrite IH|by destruct b1, b2|congruence].
Qed.

Lemma loop_same_sessions log log' :
  same_sessions log log' →
  ∀ last_review,
    calls_from last_review log = calls_from last_review log'
    ∧ last_from last_review log = last_from last_review log'.
Proof.
  induction 1 as [|[t trials] [t' trials'] log log' [Ht Htrials] _ IH];
    intros last_review; [done|].
  simpl in Ht, Htrials. subst t'. simpl.
  rewrite (any_Permutation _ _ Htrials), (sum_Permutation _ _ Htrials).
  unfold len. rewrite (Permutation_length Htrials).
  destruct last_review as [prev|].
  - destruct (IH (Some t)) as [-> ->]. done.
  - destruct (any trials'); apply IH.
Qed.

Lemma review_sessions_Permutation rows rows' :
  rows ≡ₚ rows' →
  (review_sessions rows).*1 = (review_sessions rows').*1
  ∧ same_sessions (review_sessions rows) (review_sessions rows').
Proof.
  intros Hperm.
  assert (Hkeys : (review_sessions rows).*1 = (review_sessions rows').*1).
  { apply (StronglySorted_unique Z.lt);
      [apply review_sessions_ascending..|].
    apply NoDup_Permutation; [apply review_sessions_NoDup..|].
    intros t. rewrite !elem_of_review_sessions_times.
    by setoid_rewrite Hperm. }
  split; [exact Hkeys|]. unfold same_sessions.
  rewrite (review_sessions_canonical rows), (review_sessions_canonical rows').
  rewrite <- Hkeys. apply Forall2_fmap, Forall_Forall2_diag, Forall_forall.
  intros t _. simpl. split; [done|]. unfold trials_at. by rewrite Hperm.
Qed.

(** X3.  The order in which the database yields the rows of [revlog]
    does not matter: on a permutation of the rows a card's review log
    has the same session times and the same trials in each session up
    to their order, [emulate] requests the same updates, and it
    returns the same card but for the [review_log] it stores. *)
Theorem emulate_row_order_irrelevant `{E : Ebisu} conn conn' card_id :
  revlog conn ≡ₚ revlog conn' →
  let log := get_review_log conn card_id in
  let log' := get_review_log conn' card_id in
  log.*1 = log'.*1
  ∧ same_sessions log log'
  ∧ update_calls log = update_calls log'
  ∧ emulate card_id log'
    = fmap (M := outcome)
        (fmap (M := option)
           (λ card : EbisuCard,
              MkCard card_id log' (model card) (last_review card)))
        (emulate card_id log).
Proof.
  intros Hperm log log'.
  assert (Hrows : select_revlog conn card_id ≡ₚ select_revlog conn' card_id)
    by (unfold select_revlog; by rewrite Hperm).
  destruct (review_sessions_Permutation _ _ Hrows) as [Hkeys Hsame].
  fold (get_review_log conn card_id) in Hkeys, Hsame.
  fold (get_review_log conn' card_id) in Hkeys, Hsame. fold log log' in Hkeys, Hsame.
  destruct (loop_same_sessions _ _ Hsame None) as [Hcalls Hlast].
  split_and!; [done|done|by rewrite !update_calls_unfold|].
  rewrite !emulate_replay, !update_calls_unfold, <- Hcalls.
  rewrite <- !last_from_None, <- Hlast.
  destruct (replay _ _) as [current|e]; [|done].
  simpl. by destruct (last_from None log).
Qed.

Lemma emulate_row_order_irrelevant_witness :
  let conn := MkConn [1] [RevlogRow 1000 1 3; RevlogRow 5000 1 1;
                          RevlogRow 5400 1 4; RevlogRow 9000 1 2] in
  let conn' := MkConn [1] [RevlogRow 9000 1 2; RevlogRow 5400 1 4;
                           RevlogRow 1000 1 3; RevlogRow 5000 1 1] in
  get_review_log conn 1 = [(1, [true]); (5, [false; true]); (9, [true])]
  ∧ get_review_log conn' 1 = [(1, [true]); (5, [true; false]); (9, [true])]
  ∧ update_calls (get_review_log conn 1) = update_calls (get_review_log conn' 1).
Proof.
  intros conn conn'.
  split_and!; [vm_compute; reflexivity..|].
  refine (proj1 (proj2 (proj2
            (emulate_row_order_irrelevant (E := spy) conn conn' 1 _)))).
  simpl.
  change [RevlogRow 9000 1 2; RevlogRow 5400 1 4;
          RevlogRow 1000 1 3; RevlogRow 5000 1 1]
    with ([RevlogRow 9000 1 2; RevlogRow 5400 1 4]
            ++ [RevlogRow 1000 1 3; RevlogRow 5000 1 1]).
  rewrite (Permutation_app_comm [RevlogRow 9000 1 2; RevlogRow 5400 1 4]).
  simpl. do 2 apply Permutation_skip. apply Permutation_swap.
Defined.

(** * Further properties of the emulator *)

(** A log with a pass splits at its anchor, the first session with a
    pass. *)
Lemma has_pass_anchor (review_log : list session) :
  has_pass review_log = true →
  ∃ pre t trials post,
    review_log = pre ++ (t, trials) :: post
    ∧ has_pass pre = false ∧ any trials = true.
Proof.
  induction review_log as [|[t trials] rest IH]; [done|].
  unfold has_pass in *. cbn [existsb snd].
  destruct (any trials) eqn:Hany.
  - intros _. by exists [], t, trials, rest.
  - intros Hrest. destruct (IH Hrest) as (pre & t' & trials' & post & -> & Hpre & Hany').
    exists ((t, trials) :: pre), t', trials', post.
    split_and!; [done| |done]. cbn [existsb snd]. by rewrite Hany.
Qed.

Lemma calls_from_Some_zip post : ∀ prev,
  calls_from (Some prev) post
  = zip_with (λ prev (s : session), MkCall (sum s.2) (len s.2) (s.1 - prev))
             (prev :: post.*1) post.
Proof.
  induction post as [|[t trials] post IH]; intros prev; [done|].
  simpl. by rewrite IH.
Qed.

Lemma calls_from_anchor pre t trials post :
  has_pass pre = false → any trials = true →
  calls_from None (pre ++ (t, trials) :: post) = calls_from (Some t) post.
Proof.
  intros Hpre Hany. rewrite calls_from_skip by done. simpl. by rewrite Hany.
Qed.

(** X4.  [emulate] is an online fold: the result on a log extended by
    one session is obtained from the result on the log, by one update
    of its model with the session's successes, its number of trials
    and the time since the card's [last_review]; or, when there was no
    result yet, by taking the session as anchor if it has a pass.  An
    exception on the shorter log is the exception on the longer. *)
Theorem emulate_snoc `{E : Ebisu} card_id review_log (s : session) :
  emulate card_id (review_log ++ [s])
  = (card ← emulate card_id review_log;
     match card with
     | Some card =>
         current ← updateRecall (model card) (sum s.2) (len s.2)
                                (s.1 - last_review card);
         mret (Some (MkCard card_id (review_log ++ [s]) current s.1))
     | None =>
         mret (if any s.2
               then Some (MkCard card_id (review_log ++ [s])
                                 (defaultModel 600) s.1)
               else None)
     end).
Proof.
  unfold emulate. rewrite for_each_app, emulate_loop.
  change (10 * 60) with 600.
  destruct (last_from None review_log) as [prev|] eqn:Hlast.
  - destruct (replay _ _) as [current|e]; [|done].
    destruct s as [timestamp trials]. simpl.
    by destruct (updateRecall current _ _ _).
  - assert (Hpass : has_pass review_log = false).
    { rewrite last_from_None in Hlast.
      destruct (has_pass review_log) eqn:Hp; [|done].
      destruct (has_pass_last _ Hp) as [t_last Ht]. congruence. }
    rewrite (calls_from_no_pass _ Hpass).
    destruct s as [timestamp trials]. simpl. by destruct (any trials).
Qed.

(** X5.  The updates [emulate] requests are one for each session after
    the anchor, with that session's successes and number of trials and
    the time since the session before it: neither the sessions before
    the anchor nor the trials of the anchor have any influence. *)
Theorem update_calls_from_anchor pre t trials post :
  has_pass pre = false → any trials = true →
  update_calls (pre ++ (t, trials) :: post)
  = zip_with (λ prev (s : session), MkCall (sum s.2) (len s.2) (s.1 - prev))
             (t :: post.*1) post.
Proof.
  intros Hpre Hany.
  by rewrite update_calls_unfold, calls_from_anchor, calls_from_Some_zip.
Qed.

Lemma update_calls_from_anchor_witness :
  update_calls ([(10, [false]); (15, [false; false])]
                  ++ (20, [false; true]) :: [(50, [false]); (90, [true; true])])
  = [MkCall 0 1 30; MkCall 2 2 40].
Proof.
  exact (update_calls_from_anchor [(10, [false]); (15, [false; false])]
           20 [false; true] [(50, [false]); (90, [true; true])]
           eq_refl eq_refl).
Defined.

Lemma sum_Z_tnow post : ∀ prev,
  sum_Z (uc_tnow <$> calls_from (Some prev) post)
  = default prev (last (post.*1)) - prev.
Proof.
  induction post as [|[t trials] post IH]; intros prev; [simpl; lia|].
  simpl calls_from. rewrite fmap_cons; simpl sum_Z. rewrite IH.
  rewrite fmap_cons, last_cons; simpl.
  destruct (last (post.*1)); simpl; lia.
Qed.

Lemma sum_Z_trials post : ∀ prev,
  sum_Z (uc_total <$> calls_from (Some prev) post)
    = sum_Z ((λ s : session, len s.2) <$> post)
  ∧ sum_Z (uc_successes <$> calls_from (Some prev) post)
    = sum_Z ((λ s : session, sum s.2) <$> post).
Proof.
  induction post as [|[t trials] post IH]; intros prev; [done|].
  simpl calls_from. rewrite !fmap_cons; simpl.
  destruct (IH t) as [-> ->]. done.
Qed.

(** X6.  The updates account for exactly what follows the anchor:
    their elapsed times add up to the time from the anchor to the last
    session, their totals to the number of trials after the anchor and
    their successes to the number of passes after it. *)
Theorem update_calls_account_after_anchor pre t trials post :
  has_pass pre = false → any trials = true →
  let calls := update_calls (pre ++ (t, trials) :: post) in
  sum_Z (uc_tnow <$> calls) = default t (last (post.*1)) - t
  ∧ sum_Z (uc_total <$> calls) = sum_Z ((λ s : session, len s.2) <$> post)
  ∧ sum_Z (uc_successes <$> calls) = sum_Z ((λ s : session, sum s.2) <$> post).
Proof.
  intros Hpre Hany calls. unfold calls.
  rewrite update_calls_unfold, calls_from_anchor by done.
  split; [apply sum_Z_tnow | apply sum_Z_trials].
Qed.

Lemma update_calls_account_after_anchor_witness :
  let calls := update_calls ([(10, [false])]
                 ++ (20, [false; true]) :: [(50, [false]); (90, [true; true])]) in
  sum_Z (uc_tnow <$> calls) = 90 - 20
  ∧ sum_Z (uc_total <$> calls) = 3
  ∧ sum_Z (uc_successes <$> calls) = 2.
Proof.
  exact (update_calls_account_after_anchor [(10, [false])] 20 [false; true]
           [(50, [false]); (90, [true; true])] eq_refl eq_refl).
Defined.

Lemma calls_from_Some_pre_iff post : ∀ prev,
  Forall update_pre (calls_from (Some prev) post)
  ↔ StronglySorted Z.lt (prev :: post.*1) ∧ nonempty_trials post.
Proof.
  unfold nonempty_trials.
  induction post as [|[t trials] post IH]; intros prev.
  - simpl. split; [intros _; by repeat constructor | by intros _].
  - simpl calls_from. rewrite fmap_cons, Forall_cons, IH. simpl.
    assert (Hlen : 1 ≤ len trials ↔ trials ≠ [])
      by (unfold len; destruct trials; simpl; split; (done || lia)).
    pose proof (sum_bounds trials) as Hsum.
    unfold update_pre; simpl. split.
    + intros ((Hlt & Htot & _) & Hsorted & Hne). split.
      * constructor; [done|]. constructor; [lia|].
        apply StronglySorted_inv in Hsorted as [_ Hall].
        eapply Forall_impl; [exact Hall|]. simpl. lia.
      * constructor; [by apply Hlen|done].
    + intros (Hsorted & Hne).
      apply StronglySorted_inv in Hsorted as [Hsorted Hall].
      apply Forall_cons in Hall as [Hlt _].
      apply Forall_cons in Hne as [Htrials Hne]. simpl in Htrials.
      apply Hlen in Htrials. split_and!; (done || lia).
Qed.

(** X7.  The conditions on the log are exact: the updates all lie
    within the precondition of Ebisu's update if and only if the times
    from the anchor on are strictly ascending and every session after
    the anchor has a trial.  So a repeated or decreasing time after
    the anchor, or an empty session, always reaches Ebisu. *)
Theorem update_calls_pre_iff pre t trials post :
  has_pass pre = false → any trials = true →
  Forall update_pre (update_calls (pre ++ (t, trials) :: post))
  ↔ StronglySorted Z.lt (t :: post.*1) ∧ nonempty_trials post.
Proof.
  intros Hpre Hany.
  rewrite update_calls_unfold, calls_from_anchor by done.
  apply calls_from_Some_pre_iff.
Qed.

Lemma update_calls_pre_iff_witness :
  ¬ Forall update_pre
      (update_calls ([] ++ (5, [true]) :: [(5, [false]); (9, [true])]))
  ∧ Forall update_pre
      (update_calls ([(9, [false])] ++ (5, [true]) :: [(6, [false])])).
Proof.
  split.
  - intros Hpre.
    apply (proj1 (update_calls_pre_iff [] 5 [true] [(5, [false]); (9, [true])]
                    eq_refl eq_refl)) in Hpre as [Hsorted _].
    apply StronglySorted_inv in Hsorted as [_ Hall].
    apply Forall_cons in Hall as [Hlt _]. simpl in Hlt. lia.
  - apply (proj2 (update_calls_pre_iff [(9, [false])] 5 [true] [(6, [false])]
                    eq_refl eq_refl)).
    split; [|by repeat constructor]. simpl. repeat constructor; lia.
Defined.

Lemma replay_Raised `{E : Ebisu} calls e : ∀ m : Model,
  replay calls m = Raised e →
  ∃ c (m' : Model), c ∈ calls
    ∧ updateRecall m' (uc_successes c) (uc_total c) (uc_tnow c) = Raised e.
Proof.
  induction calls as [|c calls IH]; intros m Hraised; [done|].
  unfold replay in *. simpl in Hraised.
  destruct (updateRecall m (uc_successes c) (uc_total c) (uc_tnow c))
    as [m1|e1] eqn:Hc; simpl in Hraised.
  - destruct (IH m1 Hraised) as (c' & m' & Hin & Hc').
    exists c', m'. split; [by apply list_elem_of_further|done].
  - injection Hraised as ->. exists c, m. split; [apply list_elem_of_here|done].
Qed.

(** X8.  [emulate] raises nothing of its own: an exception it raises
    was raised by one of the updates it requested from Ebisu, so the
    log has a session after its anchor; and once an update has raised
    no card is returned. *)
Theorem emulate_raises_only_from_update `{E : Ebisu} card_id review_log e :
  emulate card_id review_log = Raised e →
  (∃ c (m : Model), c ∈ update_calls review_log
     ∧ updateRecall m (uc_successes c) (uc_total c) (uc_tnow c) = Raised e)
  ∧ (∃ pre t trials s post,
       review_log = pre ++ (t, trials) :: s :: post
       ∧ has_pass pre = false ∧ any trials = true)
  ∧ replay (update_calls review_log) (defaultModel 600) = Raised e.
Proof.
  intros Hraised. rewrite emulate_replay in Hraised.
  destruct (replay (update_calls review_log) (defaultModel 600))
    as [current|e'] eqn:Hreplay; [done|].
  injection Hraised as ->.
  destruct (replay_Raised _ _ _ Hreplay) as (c & m & Hin & Hc).
  split_and!; [by exists c, m| |done].
  destruct (has_pass review_log) eqn:Hpass.
  - destruct (has_pass_anchor _ Hpass) as (pre & t & trials & post & -> & Hpre & Hany).
    rewrite update_calls_unfold, calls_from_anchor in Hin by done.
    destruct post as [|s post]; [by apply elem_of_nil in Hin|].
    by exists pre, t, trials, s, post.
  - rewrite update_calls_no_pass in Hin by done. by apply elem_of_nil in Hin.
Qed.

Lemma emulate_raises_only_from_update_witness :
  emulate (E := strict_spy) 1 [(3, [false]); (5, [true]); (5, [false]); (9, [true])]
    = Raised EbisuError
  ∧ replay (E := strict_spy)
      (update_calls [(3, [false]); (5, [true]); (5, [false]); (9, [true])])
      (defaultModel 600)
    = Raised EbisuError.
Proof.
  assert (Hraised : emulate (E := strict_spy) 1
                      [(3, [false]); (5, [true]); (5, [false]); (9, [true])]
                    = Raised EbisuError) by reflexivity.
  split; [exact Hraised|].
  exact (proj2 (proj2 (emulate_raises_only_from_update 1 _ _ Hraised))).
Defined.

(** X9.  For a log with a pass, [emulate] requests at most
    [len(review_log) - 1] updates, the number [main] adds to its
    count of reviews, and exactly that many only when the first
    session already has a pass: every session before the anchor is
    counted by [main] without having been an update. *)
Theorem update_calls_count review_log :
  has_pass review_log = true →
  len (update_calls review_log) ≤ len review_log - 1
  ∧ (len (update_calls review_log) = len review_log - 1
     ↔ ∃ s rest, review_log = s :: rest ∧ any s.2 = true).
Proof.
  intros Hpass.
  destruct (has_pass_anchor _ Hpass) as (pre & t & trials & post & -> & Hpre & Hany).
  rewrite update_calls_unfold, calls_from_anchor by done.
  unfold len. rewrite calls_from_Some_length, length_app. simpl length.
  unfold session in *. split; [lia|]. split.
  - intros Hlen. destruct pre as [|s pre]; [|simpl in Hlen; lia].
    by exists (t, trials), post.
  - intros (s & rest & Heq & Hs). destruct pre as [|s' pre]; [simpl; lia|].
    simpl in Heq. injection Heq as <- _.
    unfold has_pass in Hpre. simpl in Hpre. by rewrite Hs in Hpre.
Qed.

Lemma update_calls_count_witness :
  len (update_calls [(3, [false]); (5, [true]); (7, [false]); (9, [true])])
    ≤ len [(3, [false]); (5, [true]); (7, [false]); (9, [true])] - 1
  ∧ update_calls [(3, [false]); (5, [true]); (7, [false]); (9, [true])]
    = [MkCall 0 1 2; MkCall 1 1 2].
Proof.
  split; [|reflexivity].
  exact (proj1 (update_calls_count
                  [(3, [false]); (5, [true]); (7, [false]); (9, [true])]
                  eq_refl)).
Defined.

(** * Further properties of [fuzzy_delta] *)

(** The loop on any list of units: it skips the units whose doubled
    interval exceeds [abs(dt)] and takes the first one that does not,
    or whose interval is 1. *)
Lemma fuzzy_loop_select skipped name interval rest dt :
  Forall (λ u : string * Z, Z.abs dt < 2 * u.2 ∧ u.2 ≠ 1) skipped →
  2 * interval ≤ Z.abs dt ∨ interval = 1 →
  fuzzy_loop (skipped ++ (name, interval) :: rest) dt
  = Some ("about " +:+ fmt_d (Z.abs dt `div` interval) +:+ " " +:+ name
            +:+ (if bool_decide (Z.abs dt `div` interval > 1) then "s" else ""))%string.
Proof.
  intros Hskipped Htake.
  induction Hskipped as [|[name' interval'] skipped [Hlt Hne] _ IH].
  - simpl. destruct Htake as [Hge| ->].
    + by rewrite bool_decide_eq_false_2 by lia.
    + by rewrite andb_false_r.
  - simpl in Hlt, Hne. simpl.
    rewrite bool_decide_eq_true_2 by done.
    apply Z.eqb_neq in Hne. by rewrite Hne.
Qed.

(** X10.  The unit of [fuzzy_delta]: for a nonzero [dt] the raw text
    is "about N unit" with the largest unit of the table whose
    interval fits at least twice into [abs(dt)], or the second
    otherwise; N is [abs(dt)] divided by the unit's interval, rounded
    down; and the unit is in the plural exactly when [abs(dt)] is at
    least 2. *)
Theorem fuzzy_delta_unit_selection dt :
  dt ≠ 0 →
  ∃ name interval,
    (name, interval) ∈ units
    ∧ (2 * interval ≤ Z.abs dt ∨ interval = 1)
    ∧ (∀ name' interval',
         (name', interval') ∈ units → interval < interval' →
         Z.abs dt < 2 * interval')
    ∧ fuzzy_delta dt true
      = Returned ("about " +:+ fmt_d (Z.abs dt `div` interval) +:+ " " +:+ name
                    +:+ (if decide (2 ≤ Z.abs dt)%Z then "s" else ""))%string.
Proof.
  intros Hdt.
  assert (Hcases :
    ∃ k name interval,
      units = take k units ++ (name, interval) :: drop (S k) units
      ∧ 0 < interval
      ∧ Forall (λ u : string * Z, Z.abs dt < 2 * u.2 ∧ u.2 ≠ 1) (take k units)
      ∧ (2 * interval ≤ Z.abs dt ∨ interval = 1)
      ∧ Forall (λ u : string * Z, u.2 ≤ interval) (drop k units)).
  { destruct (decide (2 * (60 * 60 * 24 * 365) ≤ Z.abs dt));
      [exists 0%nat; eexists _, _; split; [reflexivity|];
       split_and!; [lia|constructor|by left|repeat constructor; simpl; lia]|].
    destruct (decide (2 * (60 * 60 * 24 * 30) ≤ Z.abs dt));
      [exists 1%nat; eexists _, _; split; [reflexivity|];
       split_and!; [lia|repeat constructor; simpl; lia|by left
                    |repeat constructor; simpl; lia]|].
    destruct (decide (2 * (60 * 60 * 24 * 7) ≤ Z.abs dt));
      [exists 2%nat; eexists _, _; split; [reflexivity|];
       split_and!; [lia|repeat constructor; simpl; lia|by left
                    |repeat constructor; simpl; lia]|].
    destruct (decide (2 * (60 * 60 * 24) ≤ Z.abs dt));
      [exists 3%nat; eexists _, _; split; [reflexivity|];
       split_and!; [lia|repeat constructor; simpl; lia|by left
                    |repeat constructor; simpl; lia]|].
    destruct (decide (2 * (60 * 60) ≤ Z.abs dt));
      [exists 4%nat; eexists _, _; split; [reflexivity|];
       split_and!; [lia|repeat constructor; simpl; lia|by left
                    |repeat constructor; simpl; lia]|].
    destruct (decide (2 * 60 ≤ Z.abs dt));
      [exists 5%nat; eexists _, _; split; [reflexivity|];
       split_and!; [lia|repeat constructor; simpl; lia|by left
                    |repeat constructor; simpl; lia]|].
    exists 6%nat; eexists _, _; split; [reflexivity|].
    split_and!; [lia|repeat constructor; simpl; lia|by right
                 |repeat constructor; simpl; lia]. }
  destruct Hcases as (k & name & interval & Hunits & Hpos & Hskip & Htake & Hrest).
  exists name, interval. split_and!.
  - rewrite Hunits. apply elem_of_app. right. apply list_elem_of_here.
  - exact Htake.
  - intros name' interval' Hin Hlt.
    rewrite <- (take_drop k units) in Hin.
    apply elem_of_app in Hin as [Hin|Hin].
    + rewrite Forall_forall in Hskip. by destruct (Hskip _ Hin).
    + rewrite Forall_forall in Hrest. specialize (Hrest _ Hin). simpl in Hrest. lia.
  - unfold fuzzy_delta. apply Z.eqb_neq in Hdt as Hdt'. rewrite Hdt'.
    rewrite Hunits at 1. rewrite (fuzzy_loop_select _ _ _ _ _ Hskip Htake).
    simpl. do 5 f_equal.
    destruct Htake as [Hge| ->].
    + assert (2 ≤ Z.abs dt `div` interval)
        by (apply Z.div_le_lower_bound; lia).
      rewrite bool_decide_eq_true_2 by lia. by rewrite decide_True by lia.
    + rewrite Z.div_1_r. case_bool_decide; case_decide; (done || lia).
Qed.

Lemma fuzzy_delta_unit_selection_witness :
  ∃ name interval,
    (name, interval) ∈ units
    ∧ (2 * interval ≤ Z.abs (-200000) ∨ interval = 1)
    ∧ fuzzy_delta (-200000) true
      = Returned ("about " +:+ fmt_d (Z.abs (-200000) `div` interval) +:+ " "
                    +:+ name
                    +:+ (if decide (2 ≤ Z.abs (-200000))%Z then "s" else ""))%string.
Proof.
  destruct (fuzzy_delta_unit_selection (-200000)) as
    (name & interval & Hin & Htake & _ & Hfuzzy); [done|].
  by exists name, interval.
Defined.

Lemma fuzzy_loop_opp us dt : fuzzy_loop us (- dt) = fuzzy_loop us dt.
Proof.
  induction us as [|[name interval] us IH]; [done|].
  simpl. by rewrite Z.abs_opp, IH.
Qed.

Lemma prefix_empty (s : string) : String.prefix "" s = true.
Proof. by destruct s. Qed.

Lemma fuzzy_loop_about us dt fuzzy :
  fuzzy_loop us dt = Some fuzzy → startswith fuzzy "about " = true.
Proof.
  induction us as [|[name interval] us IH]; [done|]. simpl.
  destruct (_ && _); [exact IH|]. intros [= <-].
  unfold startswith. simpl. apply prefix_empty.
Qed.

(** X11.  [fuzzy_delta] never leaves [fuzzy] unassigned: it returns a
    string for every [dt].  For a nonzero [dt] the raw text starts
    with "about ", is the same for [dt] and [-dt], and the framed text
    is that text after "in " when [dt] is positive and before " ago"
    when it is negative. *)
Theorem fuzzy_delta_framing dt :
  (∀ raw, ∃ s, fuzzy_delta dt raw = Returned s)
  ∧ (dt ≠ 0 →
     ∃ fuzzy,
       fuzzy_delta dt true = Returned fuzzy
       ∧ fuzzy_delta (- dt) true = Returned fuzzy
       ∧ startswith fuzzy "about " = true
       ∧ fuzzy_delta dt false
         = Returned (if bool_decide (dt > 0) then "in " +:+ fuzzy
                     else fuzzy +:+ " ago")%string).
Proof.
  split; [intros raw; apply fuzzy_delta_returns|].
  intros Hdt. destruct (fuzzy_loop_units_Some dt) as [fuzzy Hfuzzy].
  exists fuzzy. unfold fuzzy_delta.
  assert (Hopp : - dt ≠ 0) by lia.
  apply Z.eqb_neq in Hdt as Hdt', Hopp. rewrite Hdt', Hopp.
  rewrite fuzzy_loop_opp, Hfuzzy. simpl.
  split_and!; [done|done|by eapply fuzzy_loop_about|].
  case_bool_decide; [done|]. by rewrite bool_decide_eq_true_2 by lia.
Qed.

Lemma fuzzy_delta_framing_witness :
  ∃ fuzzy,
    fuzzy_delta 7300 true = Returned fuzzy
    ∧ fuzzy_delta (- 7300) true = Returned fuzzy
    ∧ startswith fuzzy "about " = true
    ∧ fuzzy_delta 7300 false
      = Returned (if bool_decide (7300 > 0) then "in " +:+ fuzzy
                  else fuzzy +:+ " ago")%string.
Proof. apply (proj2 (fuzzy_delta_framing 7300)). done. Defined.

(** * Further properties of the summary *)

Lemma length_remove_dups_le (l : list Z) :
  (length (remove_dups l) ≤ length l)%nat.
Proof.
  induction l as [|x l IH]; [done|]. simpl.
  destruct (decide_rel elem_of x l); simpl; lia.
Qed.

Lemma length_filter_le {A : Type} (P : A → Prop) `{∀ x, Decision (P x)}
    (l : list A) :
  (length (filter P l) ≤ length l)%nat.
Proof.
  induction l as [|x l IH]; [done|].
  rewrite filter_cons. case_decide; simpl; lia.
Qed.

Lemma filter_ext_Forall {A : Type} (P Q : A → Prop)
    `{∀ x, Decision (P x)} `{∀ x, Decision (Q x)} (l : list A) :
  Forall (λ x, P x ↔ Q x) l → filter P l = filter Q l.
Proof.
  induction 1 as [|x l Hx _ IH]; [done|].
  rewrite !filter_cons, IH. repeat case_decide; tauto.
Qed.

(** A card has no more sessions than rows. *)
Lemma len_get_review_log_le conn card_id :
  len (get_review_log conn card_id) ≤ len (select_revlog conn card_id).
Proof.
  rewrite len_get_review_log. unfold len.
  pose proof (length_remove_dups_le
                ((λ row : Z * Z, row.1 `div` 1000) <$> select_revlog conn card_id))
    as Hle.
  rewrite length_fmap in Hle. lia.
Qed.

(** Distinct cards share no rows. *)
Lemma sum_Z_select_revlog_le conn (card_ids : list Z) :
  NoDup card_ids →
  sum_Z ((λ card_id, len (select_revlog conn card_id)) <$> card_ids)
  ≤ len (revlog conn).
Proof.
  intros Hnd. unfold select_revlog, len.
  induction (revlog conn) as [|r rows IH].
  - simpl. replace (sum_Z _) with 0; [done|].
    clear. induction card_ids as [|c cs IHc]; [done|].
    rewrite fmap_cons; simpl. by rewrite <- IHc.
  - transitivity
      (sum_Z ((λ card_id,
                 (if decide (rl_cid r = card_id) then 1 else 0)
                 + Z.of_nat (length ((λ r, (rl_id r, rl_ease r))
                      <$> filter (λ r, rl_cid r = card_id) rows)))
                <$> card_ids)).
    { apply Z.eq_le_incl. f_equal. apply list_fmap_ext. intros _ card_id _.
      rewrite filter_cons. case_decide; [rewrite fmap_cons|]; simpl length.
      all: lia. }
    rewrite (sum_Z_add (λ card_id, if decide (rl_cid r = card_id) then 1 else 0)).
    pose proof (sum_Z_indicator_le card_ids (rl_cid r) Hnd).
    simpl length. lia.
Qed.

Lemma is_card_has_pass `{E : Ebisu} card_id review_log r :
  emulate card_id review_log = Returned r →
  is_card (emulate card_id review_log) ↔ has_pass review_log = true.
Proof.
  intros Hr. rewrite Hr. destruct r as [card|]; simpl.
  - split; [intros _|done]. apply not_false_iff_true. intros Hpass.
    pose proof (emulate_no_pass card_id _ Hpass). congruence.
  - split; [done|]. intros Hpass.
    pose proof (proj1 (emulate_None_iff card_id review_log) Hr). congruence.
Qed.

Lemma main_loop_all_returned `{E : Ebisu} conn card_ids : ∀ totals totals',
  for_each (main_step conn) card_ids totals = Returned totals' →
  Forall (λ card_id, ∃ r, emulate card_id (get_review_log conn card_id)
                          = Returned r) card_ids.
Proof.
  induction card_ids as [|card_id card_ids IH]; intros [tc tr] totals' Hloop;
    [constructor|].
  simpl in Hloop.
  destruct (emulate card_id (get_review_log conn card_id)) as [r|e] eqn:Hr;
    [|done].
  constructor; [by exists r|].
  simpl in Hloop. destruct r; eapply IH; exact Hloop.
Qed.

Lemma sum_Z_nonneg {A : Type} (f : A → Z) (l : list A) :
  Forall (λ x, 0 ≤ f x) l → 0 ≤ sum_Z (f <$> l).
Proof.
  induction 1 as [|x l Hx _ IH]; [done|]. rewrite fmap_cons; simpl. lia.
Qed.

Lemma sum_Z_le {A : Type} (f g : A → Z) (l : list A) :
  Forall (λ x, f x ≤ g x) l → sum_Z (f <$> l) ≤ sum_Z (g <$> l).
Proof.
  induction 1 as [|x l Hx _ IH]; [done|]. rewrite !fmap_cons; simpl. lia.
Qed.

Lemma sum_Z_filter_le {A : Type} (P : A → Prop) `{∀ x, Decision (P x)}
    (f : A → Z) (l : list A) :
  Forall (λ x, 0 ≤ f x) l → sum_Z (f <$> filter P l) ≤ sum_Z (f <$> l).
Proof.
  induction 1 as [|x l Hx _ IH]; [done|].
  rewrite filter_cons, fmap_cons. case_decide; [rewrite fmap_cons|]; simpl; lia.
Qed.

Lemma sum_Z_succ {A : Type} (f : A → Z) (l : list A) :
  len l + sum_Z (f <$> l) = sum_Z ((λ x, f x + 1) <$> l).
Proof.
  unfold len. induction l as [|x l IH]; [done|].
  rewrite !fmap_cons. simpl length. simpl sum_Z. lia.
Qed.

Lemma has_pass_len (review_log : list session) :
  has_pass review_log = true → 1 ≤ len review_log.
Proof. unfold len. destruct review_log; [done|]. simpl. lia. Qed.

(** The totals of the loop of [main], when it ends, in terms of the
    cards whose review log has a pass. *)
Lemma main_totals_passed `{E : Ebisu} conn total_cards total_reviews :
  main_totals conn = Returned (total_cards, total_reviews) →
  let passed := filter (λ card_id, has_pass (get_review_log conn card_id) = true)
                       (get_all_card_ids conn) in
  total_cards = len passed
  ∧ total_reviews
    = sum_Z ((λ card_id, len (get_review_log conn card_id) - 1) <$> passed).
Proof.
  intros Hloop passed. unfold main_totals in Hloop.
  pose proof (main_loop_all_returned _ _ _ _ Hloop) as Hreturned.
  apply main_loop_totals in Hloop as [Hcards Hreviews]. simpl in Hcards, Hreviews.
  assert (Hfilter :
    filter (λ card_id, is_card (emulate card_id (get_review_log conn card_id)))
           (get_all_card_ids conn) = passed).
  { apply filter_ext_Forall. eapply Forall_impl; [exact Hreturned|].
    simpl. intros card_id [r Hr]. by eapply is_card_has_pass. }
  rewrite Hfilter in Hcards, Hreviews. split; lia.
Qed.

(** X12.  When [main] prints its summary, the number of cards is the
    number of distinct cards with a review other than button 1,
    whatever the implementation of Ebisu; it is at least 1 and at most
    the number of cards; the number of reviews is not negative, and
    cards and reviews together are at most the rows of [revlog]; the
    average is the number of reviews over the number of cards. *)
Theorem main_summary_bounds `{E : Ebisu} conn summary :
  main conn = Returned summary →
  let passed := filter (λ card_id, has_pass (get_review_log conn card_id) = true)
                       (get_all_card_ids conn) in
  imported_cards summary = len passed
  ∧ imported_reviews summary
    = sum_Z ((λ card_id, len (get_review_log conn card_id) - 1) <$> passed)
  ∧ 1 ≤ imported_cards summary ≤ len (cards conn)
  ∧ 0 ≤ imported_reviews summary
  ∧ imported_cards summary + imported_reviews summary ≤ len (revlog conn)
  ∧ per_card summary
    = Qmake (imported_reviews summary) (Z.to_pos (imported_cards summary)).
Proof.
  intros Hmain passed. unfold main in Hmain.
  destruct (main_totals conn) as [[total_cards total_reviews]|e] eqn:Htotals;
    [|done].
  destruct (main_totals_passed _ _ _ Htotals) as [Hcards Hreviews].
  fold passed in Hcards, Hreviews. simpl in Hmain.
  assert (Hpassed : Forall (λ card_id, has_pass (get_review_log conn card_id) = true)
                           passed).
  { apply Forall_forall. intros card_id Hin.
    by apply list_elem_of_filter in Hin as [Hpass _]. }
  assert (Hnonneg : 0 ≤ total_reviews).
  { rewrite Hreviews. apply sum_Z_nonneg.
    eapply Forall_impl; [exact Hpassed|]. simpl. intros card_id Hpass.
    pose proof (has_pass_len _ Hpass). lia. }
  assert (Hrows : total_cards + total_reviews ≤ len (revlog conn)).
  { rewrite Hcards, Hreviews, sum_Z_succ.
    transitivity
      (sum_Z ((λ card_id, len (select_revlog conn card_id)) <$> passed)).
    { apply sum_Z_le, Forall_forall. intros card_id _.
      pose proof (len_get_review_log_le conn card_id). lia. }
    transitivity
      (sum_Z ((λ card_id, len (select_revlog conn card_id))
                <$> get_all_card_ids conn)).
    { unfold passed. apply sum_Z_filter_le, Forall_forall.
      intros card_id _. unfold len. lia. }
    apply sum_Z_select_revlog_le, NoDup_remove_dups. }
  assert (Hle : total_cards ≤ len (cards conn)).
  { rewrite Hcards. unfold len, passed, get_all_card_ids.
    pose proof (length_filter_le
                  (λ card_id, has_pass (get_review_log conn card_id) = true)
                  (remove_dups (cards conn))).
    pose proof (length_remove_dups_le (cards conn)). lia. }
  assert (0 ≤ total_cards) by (rewrite Hcards; unfold len; lia).
  destruct total_cards as [|d|d]; [done| |lia].
  simpl in Hmain. injection Hmain as <-. simpl.
  split_and!; (done || lia).
Qed.

Lemma main_summary_bounds_witness :
  let conn := MkConn [1; 2; 3; 2]
    [ RevlogRow 1000 1 3; RevlogRow 1500 1 1; RevlogRow 5000 1 1;
      RevlogRow 9000 1 4; RevlogRow 7000 2 3; RevlogRow 8000 2 1;
      RevlogRow 2000 3 1; RevlogRow 3000 4 3 ] in
  main (E := spy) conn = Returned (MkSummary 2 3 (Qmake 3 2))
  ∧ 2 + 3 ≤ len (revlog conn).
Proof.
  intros conn.
  assert (Hmain : main (E := spy) conn = Returned (MkSummary 2 3 (Qmake 3 2)))
    by (vm_compute; reflexivity).
  split; [exact Hmain|].
  exact (proj1 (proj2 (proj2 (proj2 (proj2
           (main_summary_bounds (E := spy) conn _ Hmain)))))).
Defined.

Lemma strict_spy_honours : honours_update_pre strict_spy.
Proof.
  intros m [successes total tnow] Hpre. simpl.
  rewrite decide_True by done. by eexists.
Qed.

(** X13.  On an opened collection and without [--verbose], with an
    implementation of Ebisu whose update returns within its
    precondition, the loop of [main] over the cards raises nothing;
    and it ends with [total_cards = 0], the one case in which the
    division of the summary line raises [ZeroDivisionError], exactly
    when no row of [revlog] that belongs to a listed card has a button
    other than 1. *)
Theorem main_loop_outcome `{E : Ebisu} conn :
  honours_update_pre E →
  ∃ total_cards total_reviews,
    main_totals conn = Returned (total_cards, total_reviews)
    ∧ 0 ≤ total_cards
    ∧ (total_cards = 0
       ↔ ¬ ∃ r, r ∈ revlog conn ∧ rl_cid r ∈ cards conn ∧ rl_ease r ≠ 1)
    ∧ (true_div total_reviews total_cards = Raised ZeroDivisionError
       ↔ total_cards = 0).
Proof.
  intros HE.
  destruct (main_loop_returns conn (get_all_card_ids conn) (0, 0) HE)
    as [[total_cards total_reviews] Hloop].
  fold (main_totals conn) in Hloop.
  destruct (main_totals_passed _ _ _ Hloop) as [Hcards _].
  set (passed := filter (λ card_id, has_pass (get_review_log conn card_id) = true)
                        (get_all_card_ids conn)) in Hcards.
  assert (Hpassed : passed ≠ []
            ↔ ∃ r, r ∈ revlog conn ∧ rl_cid r ∈ cards conn ∧ rl_ease r ≠ 1).
  { split.
    - destruct passed as [|card_id rest] eqn:Hp; [done|]. intros _.
      assert (Hin : card_id ∈ passed) by (rewrite Hp; apply list_elem_of_here).
      apply list_elem_of_filter in Hin as [Hpass Hin].
      unfold get_all_card_ids in Hin. rewrite elem_of_remove_dups in Hin.
      apply has_pass_true_iff in Hpass as (t & trials & Hs & Htrue).
      unfold get_review_log in Hs.
      apply elem_of_review_sessions in Hs as [-> _]. unfold trials_at in Htrue.
      apply list_elem_of_fmap in Htrue as ([timestamp button] & Hb & Hrow).
      apply list_elem_of_filter in Hrow as [_ Hrow]. unfold select_revlog in Hrow.
      apply list_elem_of_fmap in Hrow as (r & [= -> ->] & Hr).
      apply list_elem_of_filter in Hr as [Hcid Hr].
      exists r. split_and!; [done|by rewrite Hcid|].
      simpl in Hb. destruct (Z.eqb_spec (rl_ease r) 1); [done|lia].
    - intros (r & Hr & Hcard & Hease) Hnil.
      assert (Hin : rl_cid r ∈ passed);
        [|rewrite Hnil in Hin; by apply elem_of_nil in Hin].
      apply list_elem_of_filter.
      split; [|unfold get_all_card_ids; by rewrite elem_of_remove_dups].
      apply has_pass_true_iff.
      set (rows := select_revlog conn (rl_cid r)).
      assert (Hrow : (rl_id r, rl_ease r) ∈ rows).
      { unfold rows, select_revlog. apply list_elem_of_fmap. exists r.
        split; [done|]. by apply list_elem_of_filter. }
      assert (Htrue : true ∈ trials_at (rl_id r `div` 1000) rows).
      { unfold trials_at. apply list_elem_of_fmap. exists (rl_id r, rl_ease r).
        split; [simpl; by destruct (Z.eqb_spec (rl_ease r) 1)|].
        by apply list_elem_of_filter. }
      exists (rl_id r `div` 1000), (trials_at (rl_id r `div` 1000) rows).
      split; [|done]. apply elem_of_review_sessions. split; [done|].
      intros Hnil'. rewrite Hnil' in Htrue. by apply elem_of_nil in Htrue. }
  exists total_cards, total_reviews.
  assert (Hzero : total_cards = 0 ↔ passed = []).
  { rewrite Hcards. unfold len. destruct passed; simpl; split; (done || lia). }
  assert (0 ≤ total_cards) by (rewrite Hcards; unfold len; lia).
  split_and!; [done|done| |].
  - rewrite Hzero, <- Hpassed. split; [by intros -> ?|].
    intros Hnot. by destruct (decide (passed = [])).
  - unfold true_div. destruct total_cards; split; (done || lia).
Qed.

Lemma main_loop_outcome_witness :
  let conn := MkConn [1; 2] [RevlogRow 1000 1 1; RevlogRow 9000 2 1;
                             RevlogRow 5000 3 4] in
  ∃ total_cards total_reviews,
    main_totals (E := strict_spy) conn = Returned (total_cards, total_reviews)
    ∧ total_cards = 0
    ∧ true_div total_reviews total_cards = Raised ZeroDivisionError.
Proof.
  intros conn.
  destruct (main_loop_outcome (E := strict_spy) conn strict_spy_honours)
    as (total_cards & total_reviews & Hloop & _ & Hzero & Hdiv).
  assert (Hcards : total_cards = 0).
  { apply Hzero. intros (r & Hr & Hcard & Hease).
    repeat (apply elem_of_cons in Hr as [->|Hr]); simpl in *.
    - done.
    - done.
    - repeat (apply elem_of_cons in Hcard as [Hcard|Hcard]); try done.
      by apply elem_of_nil in Hcard.
    - by apply elem_of_nil in Hr. }
  exists total_cards, total_reviews.
  split_and!; [done|done|by apply Hdiv].
Defined.
